(** * The [import] command of the data-transfer CLI

    A shallow embedding of
    [packages/core/strapi/lib/commands/transfer/import.js]: the inference of
    the local file source options from the archive name, the entity and link
    filters, the strategy defaults, the telemetry payload, the progress
    handlers that record the exit code, and the bounded wait that ends the
    process.

    JavaScript values are modelled by a small inductive type, strings by
    [string] (the code compares characters only with [/] and [.]), indices by
    [Z] because the path scanner uses [-1] as a sentinel.  A call that may
    throw returns a [completion].  The event loop is an explicit timeline of
    handler steps that is threaded through the main flow. *)

From Stdlib Require Import ZArith List Bool Lia.
From Stdlib Require Import Strings.String Strings.Ascii.
Import ListNotations.

Local Open Scope string_scope.
Local Open Scope Z_scope.

Set Warnings "-register-all".

(** ** JavaScript values and completions *)

Module Js.

(** The values the command handles.  Numbers are integers here: the command
    line hands over strings and booleans, and the only numbers the code
    writes are the exit codes 0 and 1. *)
Inductive value : Type :=
| Undefined
| Null
| Bool (b : bool)
| Number (n : Z)
| Str (s : string)
| Obj (fields : list (string * value)).

(** What a [throw] carries. *)
Inductive error : Type :=
| TypeError (message : string)
| ConfigError (message : string)
| Thrown (what : value).

(** Normal return or exception. *)
Inductive completion (A : Type) : Type :=
| Return (a : A)
| Throw (e : error).
Arguments Return {A} a.
Arguments Throw {A} e.

Definition bind {A B} (c : completion A) (k : A -> completion B) : completion B :=
  match c with
  | Return a => k a
  | Throw e => Throw e
  end.

(** [ToBoolean]. *)
Definition truthy (v : value) : bool :=
  match v with
  | Undefined | Null => false
  | Bool b => b
  | Number n => negb (n =? 0)
  | Str s => negb (String.eqb s "")
  | Obj _ => true
  end.

(** [a || b]. *)
Definition logical_or (a b : value) : value := if truthy a then a else b.

(** lodash's [isObject]: the language type Object (plain objects, arrays,
    functions), so every primitive and [null] is refused. *)
Definition isObject (v : value) : bool :=
  match v with
  | Obj _ => true
  | _ => false
  end.

Fixpoint lookup (k : string) (fields : list (string * value)) : value :=
  match fields with
  | [] => Undefined
  | (k', v) :: rest => if String.eqb k k' then v else lookup k rest
  end.

(** [o.k] for the property names the command reads: a missing property is
    [undefined], a read on [undefined] or [null] throws. *)
Definition get (o : value) (k : string) : completion value :=
  match o with
  | Undefined | Null => Throw (TypeError "Cannot read properties of undefined")
  | Obj fields => Return (lookup k fields)
  | _ => Return Undefined
  end.

(** [String.prototype.slice(from, to)] with both arguments given. *)
Definition slice (s : string) (from to : Z) : string :=
  let len := Z.of_nat (String.length s) in
  let clamp k := if k <? 0 then Z.max (len + k) 0 else Z.min k len in
  let a := clamp from in
  let b := clamp to in
  String.substring (Z.to_nat a) (Z.to_nat (Z.max (b - a) 0)) s.

(** [Array.prototype.includes] on an array of strings (SameValueZero on
    strings is equality of their contents). *)
Definition includes (xs : list string) (x : string) : bool :=
  existsb (String.eqb x) xs.

End Js.

Notation "x <- c ;; k" := (Js.bind c (fun x => k))
  (at level 61, c at next level, right associativity).

(** ** Node's [path] module (POSIX flavour)

    [import.js] calls [path.extname] and [path.parse].  They belong to the
    platform, not to the repository; the two functions below follow the
    scanning loop of Node's [lib/path.js] statement by statement. *)

Module Path.

Definition CHAR_FORWARD_SLASH : ascii := "/"%char.
Definition CHAR_DOT : ascii := "."%char.

(** The local variables of the scanning loop. *)
Record scan_state : Type := {
  startDot : Z;
  startPart : Z;
  end_ : Z;
  matchedSlash : bool;
  preDotState : Z
}.

Definition scan_init : scan_state :=
  {| startDot := -1; startPart := 0; end_ := -1;
     matchedSlash := true; preDotState := 0 |}.

(** The part of one iteration that handles a character that is not a path
    separator, at index [i]. *)
Definition scan_char (code : ascii) (i : Z) (st : scan_state) : scan_state :=
  let st1 :=
    if end_ st =? -1
    then {| startDot := startDot st; startPart := startPart st;
            end_ := i + 1; matchedSlash := false;
            preDotState := preDotState st |}
    else st in
  if Ascii.eqb code CHAR_DOT then
    if startDot st1 =? -1 then
      {| startDot := i; startPart := startPart st1; end_ := end_ st1;
         matchedSlash := matchedSlash st1; preDotState := preDotState st1 |}
    else if negb (preDotState st1 =? 1) then
      {| startDot := startDot st1; startPart := startPart st1;
         end_ := end_ st1; matchedSlash := matchedSlash st1;
         preDotState := 1 |}
    else st1
  else if negb (startDot st1 =? -1) then
    {| startDot := startDot st1; startPart := startPart st1;
       end_ := end_ st1; matchedSlash := matchedSlash st1;
       preDotState := -1 |}
  else st1.

Definition set_startPart (st : scan_state) (p : Z) : scan_state :=
  {| startDot := startDot st; startPart := p; end_ := end_ st;
     matchedSlash := matchedSlash st; preDotState := preDotState st |}.

(** [for (i = n - 1; i >= start; --i) { ... }]: the loop of [extname]
    ([start = 0]) and of [parse]. *)
Fixpoint scan (path : string) (start : nat) (n : nat) (st : scan_state)
  : scan_state :=
  match n with
  | O => st
  | S i =>
    if (i <? start)%nat then st
    else
      match String.get i path with
      | None => st
      | Some code =>
        if Ascii.eqb code CHAR_FORWARD_SLASH then
          if negb (matchedSlash st)
          then set_startPart st (Z.of_nat i + 1)
          else scan path start i st
        else scan path start i (scan_char code (Z.of_nat i) st)
      end
  end.

(** The test that decides that the last component has no extension. *)
Definition no_extension (st : scan_state) : bool :=
  (startDot st =? -1)
  || (preDotState st =? 0)
  || ((preDotState st =? 1)
      && (startDot st =? end_ st - 1)
      && (startDot st =? startPart st + 1)).

Definition extname (path : string) : string :=
  let st := scan path 0 (String.length path) scan_init in
  if (end_ st =? -1) || no_extension st then ""
  else Js.slice path (startDot st) (end_ st).

Record parsed : Type := {
  root : string;
  dir : string;
  base : string;
  ext : string;
  name : string
}.

Definition parse (path : string) : parsed :=
  match path with
  | EmptyString => {| root := ""; dir := ""; base := ""; ext := ""; name := "" |}
  | String c0 _ =>
    let isAbsolute := Ascii.eqb c0 CHAR_FORWARD_SLASH in
    let start := if isAbsolute then 1%nat else 0%nat in
    let st := scan path start (String.length path) scan_init in
    let start' :=
      if (startPart st =? 0) && isAbsolute then 1 else startPart st in
    let whole := Js.slice path start' (end_ st) in
    let dir' :=
      if 0 <? startPart st then Js.slice path 0 (startPart st - 1)
      else if isAbsolute then "/" else "" in
    let root' := if isAbsolute then "/" else "" in
    if end_ st =? -1 then
      {| root := root'; dir := dir'; base := ""; ext := ""; name := "" |}
    else if no_extension st then
      {| root := root'; dir := dir'; base := whole; ext := ""; name := whole |}
    else
      {| root := root'; dir := dir'; base := whole;
         ext := Js.slice path (startDot st) (end_ st);
         name := Js.slice path start' (startDot st) |}
  end.

End Path.

(** ** The command *)

Module ImportCommand.

(** *** Records of the content graph *)

Record endpoint : Type := { type : string; ref : Z }.
Record link : Type := { kind : string; left : endpoint; right : endpoint }.
Record entity : Type := {
  entity_type : string;
  entity_id : Z;
  entity_data : Js.value
}.

(** *** Options handed to the providers and to the engine *)

(** [{ enabled: false }] has no [key] property; [{ enabled: true, key }] has
    one, whose value is whatever [opts.key] was. *)
Record encryption_options : Type := {
  encryption_enabled : bool;
  key : option Js.value
}.

Record source_options : Type := {
  file_path : string;
  compression_enabled : bool;
  encryption : encryption_options
}.

Record destination_options : Type := {
  strategy : Js.value;
  restore_entities_exclude : list string
}.

Record engine_options : Type := {
  versionStrategy : Js.value;
  schemaStrategy : Js.value;
  exclude : Js.value
}.

Record telemetry_payload : Type := {
  eventProperties_source : Js.value;
  eventProperties_destination : Js.value
}.

(** What the command reads of the engine. *)
Record engine : Type := {
  sourceProvider_name : Js.value;
  destinationProvider_name : Js.value
}.

(** *** [getLocalFileSourceOptions] *)

(** [path.extname] and [path.parse] validate their argument first. *)
Definition validateString (v : Js.value) : Js.completion string :=
  match v with
  | Js.Str s => Js.Return s
  | _ => Js.Throw (Js.TypeError "The path argument must be of type string")
  end.

Definition set_encryption (o : source_options) (e : encryption_options)
  : source_options :=
  {| file_path := file_path o; compression_enabled := compression_enabled o;
     encryption := e |}.

Definition set_compression (o : source_options) (enabled : bool)
  : source_options :=
  {| file_path := file_path o; compression_enabled := enabled;
     encryption := encryption o |}.

(** [options.file.path] is [opts.file]; [extname] refuses it unless it is a
    string.  The two [if] statements update the local variables [file] and
    [options]; the pairs below are their values after each statement. *)
Definition getLocalFileSourceOptions (opts : Js.value)
  : Js.completion source_options :=
  opts_file <- Js.get opts "file" ;;
  file <- validateString opts_file ;;
  let options :=
    {| file_path := file;
       compression_enabled := false;
       encryption := {| encryption_enabled := false; key := None |} |} in
  after_enc <-
    (if String.eqb (Path.extname file) ".enc" then
       opts_key <- Js.get opts "key" ;;
       Js.Return
         (Path.name (Path.parse file),
          set_encryption options
            {| encryption_enabled := true; key := Some opts_key |})
     else Js.Return (file, options)) ;;
  let '(file, options) := after_enc in
  let '(file, options) :=
    if String.eqb (Path.extname file) ".gz" then
      (Path.name (Path.parse file), set_compression options true)
    else (file, options) in
  Js.Return options.

(** *** Constants imported from [@strapi/data-transfer] and [./utils]

    Their values are not part of this file of the repository; the
    definitions below take them as they come. *)

Section Imported.

Variable DEFAULT_VERSION_STRATEGY : Js.value.
Variable DEFAULT_SCHEMA_STRATEGY : Js.value.
Variable DEFAULT_CONFLICT_STRATEGY : Js.value.
Variable DEFAULT_IGNORED_CONTENT_TYPES : list string.

Definition destinationOptions (opts : Js.value)
  : Js.completion destination_options :=
  conflictStrategy <- Js.get opts "conflictStrategy" ;;
  Js.Return
    {| strategy := Js.logical_or conflictStrategy DEFAULT_CONFLICT_STRATEGY;
       restore_entities_exclude := DEFAULT_IGNORED_CONTENT_TYPES |}.

Definition engineOptions (opts : Js.value) : Js.completion engine_options :=
  opts_versionStrategy <- Js.get opts "versionStrategy" ;;
  opts_schemaStrategy <- Js.get opts "schemaStrategy" ;;
  opts_exclude <- Js.get opts "exclude" ;;
  Js.Return
    {| versionStrategy :=
         Js.logical_or opts_versionStrategy DEFAULT_VERSION_STRATEGY;
       schemaStrategy :=
         Js.logical_or opts_schemaStrategy DEFAULT_SCHEMA_STRATEGY;
       exclude := opts_exclude |}.

(** [engineOptions.rules.links[0].filter] *)
Definition links_filter (l : link) : bool :=
  negb (Js.includes DEFAULT_IGNORED_CONTENT_TYPES (type (left l)))
  && negb (Js.includes DEFAULT_IGNORED_CONTENT_TYPES (type (right l))).

(** [engineOptions.rules.entities[0].filter] *)
Definition entities_filter (e : entity) : bool :=
  negb (Js.includes DEFAULT_IGNORED_CONTENT_TYPES (entity_type e)).

End Imported.

(** *** Telemetry *)

(** The function declares no parameter: the argument of the call is dropped. *)
Definition telemetryPayload (eng : engine) (_payload : Js.value)
  : telemetry_payload :=
  {| eventProperties_source := sourceProvider_name eng;
     eventProperties_destination := destinationProvider_name eng |}.

(** *** The progress handlers and the event loop *)

Inductive event : Type :=
| transfer_start
| transfer_finish
| transfer_error.

Definition event_eqb (a b : event) : bool :=
  match a, b with
  | transfer_start, transfer_start
  | transfer_finish, transfer_finish
  | transfer_error, transfer_error => true
  | _, _ => false
  end.

Definition telemetry_name (e : event) : string :=
  match e with
  | transfer_start => "didDEITSProcessStart"
  | transfer_finish => "didDEITSProcessFinish"
  | transfer_error => "didDEITSProcessFail"
  end.

(** The variables the handlers share with the main flow, and the telemetry
    service.  [awaiting] lists the handler calls suspended at
    [await strapiInstance.telemetry.send(...)].  [writes] is a ghost field:
    the values assigned to [transferExitCode], oldest first. *)
Record store : Type := {
  transferExitCode : option Z;
  awaiting : list event;
  sent : list (string * telemetry_payload);
  writes : list Z
}.

Definition store_init : store :=
  {| transferExitCode := None; awaiting := []; sent := []; writes := [] |}.

(** The statement after the [await] in the handler of [e]. *)
Definition assign_exit_code (e : event) (s : store) : store :=
  match e with
  | transfer_start => s
  | transfer_finish =>
    {| transferExitCode := Some 0; awaiting := awaiting s; sent := sent s;
       writes := writes s ++ [0] |}
  | transfer_error =>
    {| transferExitCode := Some 1; awaiting := awaiting s; sent := sent s;
       writes := writes s ++ [1] |}
  end.

(** Removes the first suspended call of the handler of [e], if there is one. *)
Fixpoint resume (e : event) (l : list event) : option (list event) :=
  match l with
  | [] => None
  | e' :: rest =>
    if event_eqb e e' then Some rest
    else option_map (cons e') (resume e rest)
  end.

(** What the event loop runs besides the main flow. *)
Inductive step : Type :=
| Emit (e : event) (payload : Js.value)
  (** the progress stream emits [e]: its handler runs up to the [await] *)
| Resolve (e : event)
  (** a pending [telemetry.send] of the handler of [e] resolves: the handler
      runs to its end *).

Definition run_step (eng : engine) (x : step) (s : store) : store :=
  match x with
  | Emit e payload =>
    {| transferExitCode := transferExitCode s;
       awaiting := awaiting s ++ [e];
       sent := sent s ++ [(telemetry_name e, telemetryPayload eng payload)];
       writes := writes s |}
  | Resolve e =>
    match resume e (awaiting s) with
    | None => s
    | Some rest =>
      assign_exit_code e
        {| transferExitCode := transferExitCode s; awaiting := rest;
           sent := sent s; writes := writes s |}
    end
  end.

(** The steps of the event loop with the instant (in ms, as [Date.now()]
    counts) at which each one runs, in the order in which they run. *)
Definition timeline : Type := list (Z * step).

(** Everything the event loop runs up to the instant [now]. *)
Fixpoint run_until (eng : engine) (now : Z) (tl : timeline) (s : store)
  : timeline * store :=
  match tl with
  | [] => ([], s)
  | (t, x) :: rest =>
    if t <=? now then run_until eng now rest (run_step eng x s)
    else (tl, s)
  end.

(** *** The main flow *)

Inductive log_entry : Type :=
| info (message : string)
| error (message : string)
| error_thrown (e : Js.error).

(** The [process.exit] calls of the file. *)
Inductive exit_site : Type :=
| ArgumentCheck   (** [process.exit(1)] after [!isObject(opts)] *)
| CatchBlock      (** [process.exit(1)] in the [catch] *)
| StatusPoll      (** [process.exit(transferExitCode)] in the loop *)
| Timeout         (** [process.exit(0)] after the loop *).

(** The process at a [process.exit]: [polled] lists the instants at which
    [transferExitCode !== undefined] was evaluated, oldest first; [dropped]
    is what the event loop had still to run. *)
Record exit : Type := {
  code : Z;
  site : exit_site;
  final : store;
  log : list log_entry;
  polled : list Z;
  dropped : timeline
}.

Inductive outcome : Type :=
| Exited (x : exit)
| Rejected (e : Js.error)   (** the promise of the command rejects *)
| Running                   (** the wait did not end within the fuel *).

(** What the command does not decide: the collaborators' results and the
    schedule of the event loop.  The synchronous statements of the main flow
    take no time on the clock: [Date.now()] at the start of
    [waitForExitCode] reads the instant at which the transfer settled. *)
Record world : Type := {
  the_engine : engine;
  (** creating the providers, loading the Strapi instance, creating the
      engine and subscribing the handlers (lines 37 to 107) *)
  setup : Js.completion unit;
  (** the awaited [engine.transfer()] and the instant at which it settles:
      the steps of the schedule stamped up to that instant are those the
      event loop ran before the main flow resumed *)
  transfer : Js.completion Js.value;
  transferSettledAt : Z;
  (** [buildTransferTable(results.engine)] followed by [table.toString()] *)
  buildTransferTable : Js.value -> Js.completion string;
  schedule : timeline;
  (** how late after its 50 ms the timer armed at a given instant fires *)
  timerLateness : Z -> nat;
  (** whether the loop, woken by its timer at a given instant, runs before
      the steps of the schedule that bear that same millisecond: the clock
      does not tell the two orders apart *)
  wakesFirst : Z -> bool
}.

(** The instant at which [setTimeout(resolve, 50)], called at [now], lets the
    loop continue. *)
Definition timer (w : world) (now : Z) : Z :=
  now + 50 + Z.of_nat (timerLateness w now).

(** What the event loop has run when the loop of [waitForExitCode] wakes at
    [now]: every step stamped before [now], and those stamped [now] unless
    the loop comes first. *)
Definition wake_horizon (w : world) (now : Z) : Z :=
  if wakesFirst w now then now - 1 else now.

(** The [while] loop of [waitForExitCode], one iteration per unit of fuel;
    [now] is what [Date.now()] returns in the loop condition and [s] the
    store at that moment.  The condition and the test of the slot run
    without a break; the event loop takes its turns while the loop awaits
    its timer. *)
Fixpoint poll (w : world) (fuel : nat) (maxWait startTime now : Z)
  (tl : timeline) (s : store) (lg : list log_entry) (seen : list Z)
  : option (Z * exit) :=
  match fuel with
  | O => None
  | S fuel' =>
    if now - startTime <? maxWait then
      match transferExitCode s with
      | Some c =>
        Some (now, {| code := c; site := StatusPoll; final := s; log := lg;
                      polled := seen ++ [now]; dropped := tl |})
      | None =>
        let next := timer w now in
        let '(tl, s) := run_until (the_engine w) (wake_horizon w next) tl s in
        poll w fuel' maxWait startTime next tl s lg (seen ++ [now])
      end
    else
      Some (now, {| code := 0; site := Timeout; final := s; log := lg;
                    polled := seen; dropped := tl |})
  end.

(** [waitForExitCode(maxWait)] called at the instant [startTime] with the
    store [s], the event loop having [tl] still to run: the instant of the
    exit and the exit.  Successive polls are at least 50 ms apart, so the
    fuel covers every iteration (see [waitForExitCode_exits]). *)
Definition waitForExitCode (w : world) (maxWait startTime : Z)
  (tl : timeline) (s : store) (lg : list log_entry) : option (Z * exit) :=
  poll w (Z.to_nat (maxWait / 50) + 2) maxWait startTime startTime tl s lg [].
Arguments waitForExitCode : simpl never.

(** The body of the [try]: the awaited transfer, then the report. *)
Definition try_block (w : world) : Js.completion string :=
  results <- transfer w ;;
  results_engine <- Js.get results "engine" ;;
  buildTransferTable w results_engine.

(** [module.exports]. *)
Definition command (w : world) (opts : Js.value) : outcome :=
  if negb (Js.isObject opts) then
    Exited {| code := 1; site := ArgumentCheck; final := store_init;
              log := [error "Could not parse arguments"]; polled := [];
              dropped := schedule w |}
  else
    match getLocalFileSourceOptions opts with
    | Js.Throw e => Rejected e
    | Js.Return _ =>
      match setup w with
      | Js.Throw e => Rejected e
      | Js.Return _ =>
        let lg := [info "Starting import..."] in
        let '(tl, s) :=
          run_until (the_engine w) (transferSettledAt w) (schedule w)
            store_init in
        match try_block w with
        | Js.Return table =>
          let lg :=
            (lg ++ [info table;
                    info "Import process has been completed successfully!"])%list
          in
          match waitForExitCode w 5000 (transferSettledAt w) tl s lg with
          | Some (_, x) => Exited x
          | None => Running
          end
        | Js.Throw e =>
          Exited {| code := 1; site := CatchBlock; final := s;
                    log := lg ++ [error "Import process failed unexpectedly:";
                                  error_thrown e];
                    polled := []; dropped := tl |}
        end
      end
    end.

End ImportCommand.

(** * Notions used in the statements *)

Import ImportCommand.

(** The three kinds of strategy, the option that selects each and the place
    where the command puts the strategy it settled on. *)
Inductive strategy_kind : Type :=
| version_kind
| schema_kind
| conflict_kind.

Definition option_name (k : strategy_kind) : string :=
  match k with
  | version_kind => "versionStrategy"
  | schema_kind => "schemaStrategy"
  | conflict_kind => "conflictStrategy"
  end.

Definition default_strategy (dv ds dc : Js.value) (k : strategy_kind)
  : Js.value :=
  match k with
  | version_kind => dv
  | schema_kind => ds
  | conflict_kind => dc
  end.

Definition chosen_strategy (dv ds dc : Js.value) (ignored : list string)
  (k : strategy_kind) (opts : Js.value) : Js.completion Js.value :=
  match k with
  | version_kind =>
    o <- engineOptions dv ds opts ;; Js.Return (versionStrategy o)
  | schema_kind =>
    o <- engineOptions dv ds opts ;; Js.Return (schemaStrategy o)
  | conflict_kind =>
    o <- destinationOptions dc ignored opts ;; Js.Return (strategy o)
  end.

(** A timeline with the payload of every emitted event replaced. *)
Definition with_payload (p : Js.value) (tl : timeline) : timeline :=
  map (fun '(t, x) =>
         (t, match x with
             | Emit e _ => Emit e p
             | Resolve e => Resolve e
             end)) tl.

(** The content of [transferExitCode] at the instant [t], when the event
    loop runs [tl] from the store [s]. *)
Definition slot_at (eng : engine) (tl : timeline) (s : store) (t : Z)
  : option Z :=
  transferExitCode (snd (run_until eng t tl s)).

(** What the loop of [waitForExitCode], entered at [start] with the store
    [s] and [tl] still to run, finds when it evaluates its condition at the
    instant [u]: at [start] the store as it is, later what the event loop
    ran while the loop awaited its timer. *)
Definition loop_view (w : world) (tl : timeline) (s : store) (start u : Z)
  : timeline * store :=
  if u =? start then (tl, s)
  else run_until (the_engine w) (wake_horizon w u) tl s.

(** The content of [transferExitCode] the loop reads at the instant [u]. *)
Definition read_at (w : world) (tl : timeline) (s : store) (start u : Z)
  : option Z :=
  transferExitCode (snd (loop_view w tl s start u)).

(** The same for the wait of the command, which starts when the transfer
    settles: the instant up to which the event loop has run the schedule
    when the loop evaluates its condition at [u], and the content of the
    slot then. *)
Definition command_horizon (w : world) (u : Z) : Z :=
  if u =? transferSettledAt w then transferSettledAt w
  else wake_horizon w u.

Definition command_read (w : world) (u : Z) : option Z :=
  slot_at (the_engine w) (schedule w) store_init (command_horizon w u).

Definition is_terminal (e : event) : bool :=
  match e with
  | transfer_start => false
  | transfer_finish | transfer_error => true
  end.


(** ** Archive names as lists of characters *)

Definition chars (s : string) : list ascii := list_ascii_of_string s.

Definition not_slash (c : ascii) : bool :=
  negb (Ascii.eqb c Path.CHAR_FORWARD_SLASH).

(** A character of an extension word: neither a separator nor a dot. *)
Definition word_char (c : ascii) : bool :=
  not_slash c && negb (Ascii.eqb c Path.CHAR_DOT).

(** A non-empty word such as [enc], [gz] or [tar]. *)
Definition is_word (s : string) : bool :=
  match chars s with
  | [] => false
  | l => forallb word_char l
  end.

(** A path that names a file: not empty, not ending in a separator. *)
Definition names_file (b : string) : bool :=
  match rev (chars b) with
  | [] => false
  | c :: _ => not_slash c
  end.

Fixpoint take_while (f : ascii -> bool) (l : list ascii) : list ascii :=
  match l with
  | [] => []
  | c :: rest => if f c then c :: take_while f rest else []
  end.

(** What follows the last separator of a path. *)
Definition last_component (b : string) : string :=
  string_of_list_ascii (rev (take_while not_slash (rev (chars b)))).

(** The scanning loop of [Path.scan] read on the characters still to visit,
    nearest first: the index of the head is the length of the rest. *)
Fixpoint scan_rev (start : nat) (rp : list ascii) (st : Path.scan_state)
  : Path.scan_state :=
  match rp with
  | [] => st
  | code :: rest =>
    let i := List.length rest in
    if (i <? start)%nat then st
    else if Ascii.eqb code Path.CHAR_FORWARD_SLASH then
      if negb (Path.matchedSlash st)
      then Path.set_startPart st (Z.of_nat i + 1)
      else scan_rev start rest st
    else scan_rev start rest (Path.scan_char code (Z.of_nat i) st)
  end.

(** Where the loop leaves [startPart] once a character of the last
    component has been seen. *)
Fixpoint part_start (start : nat) (rp : list ascii) (d : Z) : Z :=
  match rp with
  | [] => d
  | code :: rest =>
    if (List.length rest <? start)%nat then d
    else if Ascii.eqb code Path.CHAR_FORWARD_SLASH
         then Z.of_nat (List.length rest) + 1
         else part_start start rest d
  end.

(** The state once the extension and a character before its dot are known. *)
Definition settled (d e : Z) (st : Path.scan_state) : Prop :=
  Path.startDot st = d /\ Path.end_ st = e
  /\ Path.matchedSlash st = false /\ Path.preDotState st <> 0.

(** Two states of the scan that agree up to a shift of the indices: the
    scan of a path and the scan of its last component alone. *)
Definition shifted (off : Z) (st st' : Path.scan_state) : Prop :=
  -1 <= Path.startDot st /\ -1 <= Path.end_ st
  /\ (Path.end_ st = -1 \/ Path.matchedSlash st = false)
  /\ Path.startDot st'
     = (if Path.startDot st =? -1 then -1 else Path.startDot st + off)
  /\ Path.end_ st'
     = (if Path.end_ st =? -1 then -1 else Path.end_ st + off)
  /\ Path.matchedSlash st' = Path.matchedSlash st
  /\ Path.preDotState st' = Path.preDotState st.

(** ** The store and the timeline *)

Definition is_set (v : option Z) : Prop := exists c, v = Some c.


(** The code the handler of a terminal event assigns. *)
Definition exit_code_of (e : event) : Z :=
  match e with
  | transfer_error => 1
  | _ => 0
  end.

(** The value [transferExitCode] holds after a sequence of assignments. *)
Definition last_write (ws : list Z) : option Z :=
  match rev ws with
  | [] => None
  | c :: _ => Some c
  end.

(** The slot holds the last value assigned, and only 0 and 1 are assigned. *)
Definition store_ok (s : store) : Prop :=
  transferExitCode s = last_write (writes s)
  /\ Forall (fun c => c = 0 \/ c = 1) (writes s).


(** ** Sample runs *)

Definition sample_engine : engine :=
  {| sourceProvider_name := Js.Str "source::local-file";
     destinationProvider_name := Js.Str "destination::local-strapi" |}.

Definition sample_opts : Js.value :=
  Js.Obj [("file", Js.Str "backups/export.tar.gz.enc");
          ("key", Js.Str "secret")].

Definition sample_results : Js.value :=
  Js.Obj [("engine", Js.Obj [("entities", Js.Number 12)])].

(** The transfer throws after 30 ms; the handler of [transfer::finish] is
    still waiting for its telemetry call, which would resolve at 40 ms. *)
Definition world_transfer_throws : world :=
  {| the_engine := sample_engine;
     setup := Js.Return tt;
     transfer := Js.Throw (Js.Thrown (Js.Str "ENOSPC"));
     transferSettledAt := 30;
     buildTransferTable := fun _ => Js.Return "| entities | 12 |";
     schedule := [(0, Emit transfer_start Js.Undefined);
                  (5, Resolve transfer_start);
                  (20, Emit transfer_finish sample_results);
                  (40, Resolve transfer_finish)];
     timerLateness := fun _ => 0%nat;
     wakesFirst := fun _ => false |}.

(** The transfer resolves at once after an error event, and the telemetry
    call of the error handler takes 4960 ms. *)
Definition world_late_error : world :=
  {| the_engine := sample_engine;
     setup := Js.Return tt;
     transfer := Js.Return sample_results;
     transferSettledAt := 0;
     buildTransferTable := fun _ => Js.Return "| entities | 12 |";
     schedule := [(0, Emit transfer_error (Js.Str "boom"));
                  (4960, Resolve transfer_error)];
     timerLateness := fun _ => 0%nat;
     wakesFirst := fun _ => false |}.

(** The same run with the telemetry call resolving at 4950 ms, in the
    millisecond of the last poll, which comes first. *)
Definition world_error_at_last_poll : world :=
  {| the_engine := sample_engine;
     setup := Js.Return tt;
     transfer := Js.Return sample_results;
     transferSettledAt := 0;
     buildTransferTable := fun _ => Js.Return "| entities | 12 |";
     schedule := [(0, Emit transfer_error (Js.Str "boom"));
                  (4950, Resolve transfer_error)];
     timerLateness := fun _ => 0%nat;
     wakesFirst := fun _ => true |}.


(** One terminal event, handled 120 ms after the transfer settled. *)
Definition world_finish : world :=
  {| the_engine := sample_engine;
     setup := Js.Return tt;
     transfer := Js.Return sample_results;
     transferSettledAt := 1000;
     buildTransferTable := fun _ => Js.Return "| entities | 12 |";
     schedule := [(0, Emit transfer_start Js.Undefined);
                  (15, Resolve transfer_start);
                  (990, Emit transfer_finish sample_results);
                  (1120, Resolve transfer_finish)];
     timerLateness := fun t => if t <? 1100 then 3%nat else 0%nat;
     wakesFirst := fun _ => true |}.

(** ** Notions used in the further properties *)

(** The entity an endpoint of a link points to: same type, same id. *)
Definition is_endpoint (p : endpoint) (e : entity) : bool :=
  String.eqb (entity_type e) (type p) && (entity_id e =? ref p).

(** Every link of [ls] has both its endpoints among the entities [es]. *)
Definition references_resolve (es : list entity) (ls : list link) : Prop :=
  forall l, In l ls ->
    (exists e, In e es /\ is_endpoint (left l) e = true)
    /\ (exists e, In e es /\ is_endpoint (right l) e = true).

(** The events the progress stream has emitted up to [now]. *)
Fixpoint emitted_until (now : Z) (tl : timeline) : list event :=
  match tl with
  | [] => []
  | (t, x) :: rest =>
    if t <=? now then
      match x with
      | Emit e _ => e :: emitted_until now rest
      | Resolve _ => emitted_until now rest
      end
    else []
  end.

(** How many times a telemetry call of a terminal handler resolves in a
    timeline. *)
Fixpoint terminal_resolves (tl : timeline) : nat :=
  match tl with
  | [] => 0
  | (_, Resolve e) :: rest =>
    if is_terminal e then S (terminal_resolves rest) else terminal_resolves rest
  | (_, Emit _ _) :: rest => terminal_resolves rest
  end.

(** The message the handler of [e] hands to the telemetry service. *)
Definition telemetry_message (eng : engine) (e : event)
  : string * telemetry_payload :=
  (telemetry_name e, telemetryPayload eng Js.Undefined).

(** Every suspended handler and every assignment of the exit code comes
    after the telemetry message of its event. *)
Definition telemetry_first (eng : engine) (s : store) : Prop :=
  (forall e, In e (awaiting s) -> In (telemetry_message eng e) (sent s))
  /\ (forall c, In c (writes s) ->
         exists e, is_terminal e = true /\ exit_code_of e = c
                   /\ In (telemetry_message eng e) (sent s)).

(** The handler calls whose awaited telemetry call has resolved up to
    [now], in the order in which they resumed, read off the timeline alone:
    [pending] lists the calls suspended so far, and a [Resolve] counts when
    a call of its handler is among them. *)
Fixpoint resolved_until (now : Z) (tl : timeline) (pending : list event)
  : list event :=
  match tl with
  | [] => []
  | (t, x) :: rest =>
    if t <=? now then
      match x with
      | Emit e _ => resolved_until now rest (pending ++ [e])
      | Resolve e =>
        match resume e pending with
        | Some pending' => e :: resolved_until now rest pending'
        | None => resolved_until now rest pending
        end
      end
    else []
  end.

(** A directory prefix: empty, or ending in a separator. *)
Definition ends_dir (d : string) : bool :=
  match rev (chars d) with
  | [] => true
  | c :: _ => Ascii.eqb c Path.CHAR_FORWARD_SLASH
  end.

(** The engine reports an error and resolves; the telemetry call of the
    error handler never resolves. *)
Definition world_telemetry_hangs : world :=
  {| the_engine := sample_engine;
     setup := Js.Return tt;
     transfer := Js.Return sample_results;
     transferSettledAt := 200;
     buildTransferTable := fun _ => Js.Return "| entities | 0 |";
     schedule := [(0, Emit transfer_start Js.Undefined);
                  (10, Resolve transfer_start);
                  (150, Emit transfer_error (Js.Str "boom"))];
     timerLateness := fun _ => 1%nat;
     wakesFirst := fun _ => true |}.

(** The error handler has recorded its status before the transfer
    resolves. *)
Definition world_error_recorded : world :=
  {| the_engine := sample_engine;
     setup := Js.Return tt;
     transfer := Js.Return sample_results;
     transferSettledAt := 200;
     buildTransferTable := fun _ => Js.Return "| entities | 0 |";
     schedule := [(0, Emit transfer_start Js.Undefined);
                  (150, Emit transfer_error (Js.Str "boom"));
                  (180, Resolve transfer_error)];
     timerLateness := fun _ => 0%nat;
     wakesFirst := fun _ => false |}.

Definition sample_entities : list entity :=
  [ {| entity_type := "api::article.article"; entity_id := 1;
       entity_data := Js.Obj [] |};
    {| entity_type := "admin::user"; entity_id := 7;
       entity_data := Js.Obj [] |};
    {| entity_type := "api::tag.tag"; entity_id := 3;
       entity_data := Js.Obj [] |} ].

Definition sample_links : list link :=
  [ {| kind := "relation.basic";
       left := {| type := "api::article.article"; ref := 1 |};
       right := {| type := "api::tag.tag"; ref := 3 |} |};
    {| kind := "relation.basic";
       left := {| type := "api::article.article"; ref := 1 |};
       right := {| type := "admin::user"; ref := 7 |} |} ].

(** ** The fixture of the [CellContent] test

    The test file of the [CellContent] cell builds the props of the element
    under test from a fixture and from the props of each test case, by
    object spread.  The component reads its props by name, so an object is
    taken as the map from the names of its own properties to their values;
    the order in which JavaScript enumerates the names plays no part. *)

Module CellContentTest.

Definition object : Type := string -> option Js.value.

Definition empty : object := fun _ => None.

(** [CreateDataProperty]: defines the property [k], or replaces its value. *)
Definition set_prop (k : string) (v : Js.value) (o : object) : object :=
  fun k' => if String.eqb k' k then Some v else o k'.

(** An object literal: its properties are defined from left to right. *)
Definition literal (fields : list (string * Js.value)) : object :=
  fold_left (fun o kv => set_prop (fst kv) (snd kv) o) fields empty.

(** [{ ...o, ...src }]: every own property of [src] is defined on the copy
    of [o]. *)
Definition spread (o src : object) : object :=
  fun k =>
    match src k with
    | Some v => Some v
    | None => o k
    end.

Definition PROPS_FIXTURE : object :=
  literal
    [("alternativeText", Js.Str "alternative alt");
     ("cellType", Js.Str "image");
     ("elementType", Js.Str "asset");
     ("content", Js.Str "michka-picture-url-default.jpeg");
     ("fileExtension", Js.Str ".jpeg");
     ("mime", Js.Str "image/jpeg");
     ("thumbnailURL", Js.Str "michka-picture-url-thumbnail.jpeg");
     ("url", Js.Str "michka-picture-url-default.jpeg")].

(** [const customProps = { ...PROPS_FIXTURE, ...props }] *)
Definition customProps (props : object) : object :=
  spread (spread empty PROPS_FIXTURE) props.

(** The attributes object of [<CellContent {...PROPS_FIXTURE}
    {...customProps} />], the element [ComponentFixture] returns inside its
    providers: what the JSX hands over to React for the element. *)
Definition ComponentFixture (props : object) : object :=
  spread (spread empty PROPS_FIXTURE) (customProps props).

End CellContentTest.

(** * Properties *)

(** Proof steps used more than once. *)

Ltac break_hyps :=
  repeat match goal with
         | H : _ /\ _ |- _ => destruct H
         | H : _ \/ _ |- _ => destruct H
         | H : exists _, _ |- _ => destruct H
         | H : In _ [] |- _ => destruct H
         end.

Ltac settle_sites :=
  try discriminate; try lia; try reflexivity; try assumption;
  try (now left); try (now right; left); try (now right; right).

Ltac decide_tests :=
  repeat match goal with
         | |- context [?a =? ?b] =>
           destruct (Z.eqb_spec a b); simpl in *; try lia
         | |- context [Ascii.eqb ?a ?b] => destruct (Ascii.eqb a b)
         end.


(** ** The filters *)

Lemma includes_In (xs : list string) (x : string) :
  Js.includes xs x = true <-> In x xs.
Proof.
  unfold Js.includes. rewrite existsb_exists. split.
  - intros [y [Hy Heq]]. apply String.eqb_eq in Heq. now subst.
  - intros H. exists x. split; [assumption | apply String.eqb_refl].
Qed.

Lemma includes_not_In (xs : list string) (x : string) :
  negb (Js.includes xs x) = true <-> ~ In x xs.
Proof.
  rewrite negb_true_iff, <- includes_In.
  destruct (Js.includes xs x); split; intro H; congruence.
Qed.

(** C1. The entity filter keeps an entity exactly when its type is not in
    the exclusion list, and the link filter keeps a link exactly when the
    type of neither endpoint is in the exclusion list; the kind of the link
    plays no part. *)
Theorem filters_keep_exactly_the_not_excluded
  (excluded : list string) (e : entity) (l : link) :
  (entities_filter excluded e = true <-> ~ In (entity_type e) excluded)
  /\ (links_filter excluded l = true
      <-> ~ In (type (left l)) excluded /\ ~ In (type (right l)) excluded).
Proof.
  split.
  - unfold entities_filter. apply includes_not_In.
  - unfold links_filter. rewrite andb_true_iff, !includes_not_In. reflexivity.
Qed.

(** ** The strategy defaults *)

Lemma truthy_undefined : Js.truthy Js.Undefined = false.
Proof. reflexivity. Qed.

Lemma chosen_strategy_eq (dv ds dc : Js.value) (ignored : list string)
  (k : strategy_kind) (fields : list (string * Js.value)) :
  chosen_strategy dv ds dc ignored k (Js.Obj fields)
  = Js.Return (Js.logical_or (Js.lookup (option_name k) fields)
                 (default_strategy dv ds dc k)).
Proof. destruct k; reflexivity. Qed.

(** C8, as the code has it.  For each of the three kinds of strategy: when
    the caller's options do not give the strategy (the property is
    [undefined]), or give a falsy value (the empty string, [0], [false],
    [null]), the default constant of that kind is taken; when they give a
    truthy value, so any non-empty name, that value is taken as it is. *)
Theorem strategy_default_or_given
  (DEFAULT_VERSION_STRATEGY DEFAULT_SCHEMA_STRATEGY
     DEFAULT_CONFLICT_STRATEGY : Js.value)
  (ignored : list string) (k : strategy_kind)
  (fields : list (string * Js.value)) :
  let given := Js.lookup (option_name k) fields in
  let chosen :=
    chosen_strategy DEFAULT_VERSION_STRATEGY DEFAULT_SCHEMA_STRATEGY
      DEFAULT_CONFLICT_STRATEGY ignored k (Js.Obj fields) in
  (given = Js.Undefined ->
   chosen = Js.Return
              (default_strategy DEFAULT_VERSION_STRATEGY
                 DEFAULT_SCHEMA_STRATEGY DEFAULT_CONFLICT_STRATEGY k))
  /\ (Js.truthy given = true -> chosen = Js.Return given)
  /\ (Js.truthy given = false ->
      chosen = Js.Return
                 (default_strategy DEFAULT_VERSION_STRATEGY
                    DEFAULT_SCHEMA_STRATEGY DEFAULT_CONFLICT_STRATEGY k)).
Proof.
  intros given chosen. subst chosen. rewrite chosen_strategy_eq.
  fold given. unfold Js.logical_or. repeat split; intros H.
  - rewrite H. reflexivity.
  - rewrite H. reflexivity.
  - rewrite H. reflexivity.
Qed.

Lemma strategy_default_or_given_witness :
  (chosen_strategy (Js.Str "ignore") (Js.Str "strict") (Js.Str "restore")
     ["admin::user"] conflict_kind (Js.Obj [("file", Js.Str "report.gz")])
   = Js.Return (Js.Str "restore"))
  /\ (chosen_strategy (Js.Str "ignore") (Js.Str "strict") (Js.Str "restore")
        ["admin::user"] version_kind
        (Js.Obj [("file", Js.Str "report.gz");
                 ("versionStrategy", Js.Str "exact")])
      = Js.Return (Js.Str "exact"))
  /\ (chosen_strategy (Js.Str "ignore") (Js.Str "strict") (Js.Str "restore")
        ["admin::user"] schema_kind
        (Js.Obj [("file", Js.Str "report.gz");
                 ("schemaStrategy", Js.Number 0)])
      = Js.Return (Js.Str "strict")).
Proof.
  split; [| split].
  - apply (proj1 (strategy_default_or_given (Js.Str "ignore")
                    (Js.Str "strict") (Js.Str "restore") ["admin::user"]
                    conflict_kind [("file", Js.Str "report.gz")])).
    reflexivity.
  - apply (proj1 (proj2 (strategy_default_or_given (Js.Str "ignore")
                    (Js.Str "strict") (Js.Str "restore") ["admin::user"]
                    version_kind
                    [("file", Js.Str "report.gz");
                     ("versionStrategy", Js.Str "exact")]))).
    reflexivity.
  - apply (proj2 (proj2 (strategy_default_or_given (Js.Str "ignore")
                    (Js.Str "strict") (Js.Str "restore") ["admin::user"]
                    schema_kind
                    [("file", Js.Str "report.gz");
                     ("schemaStrategy", Js.Number 0)]))).
    reflexivity.
Defined.

(** C8, as stated, fails: the caller gives the empty string as the conflict
    strategy, and the value used is the default, not the one given. *)
Lemma empty_strategy_is_replaced :
  Js.lookup (option_name conflict_kind) [("conflictStrategy", Js.Str "")]
  = Js.Str ""
  /\ chosen_strategy (Js.Str "ignore") (Js.Str "strict") (Js.Str "restore")
       ["admin::user"] conflict_kind
       (Js.Obj [("conflictStrategy", Js.Str "")])
     = Js.Return (Js.Str "restore")
  /\ Js.Str "restore" <> Js.Str "".
Proof. repeat split. discriminate. Qed.

(** A value that is given but falsy, such as the empty string, counts as
    not given. *)
Lemma strategy_falsy_is_default (dv ds dc : Js.value)
  (ignored : list string) (k : strategy_kind)
  (fields : list (string * Js.value)) :
  Js.truthy (Js.lookup (option_name k) fields) = false ->
  chosen_strategy dv ds dc ignored k (Js.Obj fields)
  = Js.Return (default_strategy dv ds dc k).
Proof.
  intros H. rewrite chosen_strategy_eq. unfold Js.logical_or.
  now rewrite H.
Qed.

(** ** The telemetry payload *)

Lemma run_step_with_payload (eng : engine) (p : Js.value) (t : Z) (x : step)
  (s : store) :
  run_step eng
    (match x with Emit e _ => Emit e p | Resolve e => Resolve e end) s
  = run_step eng x s.
Proof. destruct x; reflexivity. Qed.

Lemma run_until_with_payload (eng : engine) (p : Js.value) (now : Z)
  (tl : timeline) :
  forall s,
    run_until eng now (with_payload p tl) s
    = (with_payload p (fst (run_until eng now tl s)),
       snd (run_until eng now tl s)).
Proof.
  induction tl as [| [t x] rest IH]; intros s; simpl.
  - reflexivity.
  - destruct (t <=? now).
    + rewrite (run_step_with_payload eng p t). apply IH.
    + reflexivity.
Qed.

(** C10. The telemetry properties do not depend on the payload of the
    lifecycle event: for any two payloads [telemetryPayload] returns the same
    value, made of the names of the engine's two providers; so what a handler
    sends is the same for any two payloads, and replacing every payload of a
    whole timeline leaves the store, with all the messages sent, as it was. *)
Theorem telemetry_independent_of_payload
  (eng : engine) (p1 p2 : Js.value) (e : event) (s : store) (now : Z)
  (tl : timeline) :
  telemetryPayload eng p1 = telemetryPayload eng p2
  /\ telemetryPayload eng p1
     = {| eventProperties_source := sourceProvider_name eng;
          eventProperties_destination := destinationProvider_name eng |}
  /\ run_step eng (Emit e p1) s = run_step eng (Emit e p2) s
  /\ snd (run_until eng now (with_payload p1 tl) s)
     = snd (run_until eng now (with_payload p2 tl) s).
Proof.
  repeat split.
  now rewrite !run_until_with_payload.
Qed.

(** ** A missing key *)

(** C4, as the code has it.  For an archive whose outermost extension is
    [.enc] the options are built whether a key is given or not: the result
    enables encryption and carries the value of [opts.key] as it is,
    [undefined] when no key was given.  No [ConfigError] is raised. *)
Theorem enc_options_carry_the_key_as_given
  (fields : list (string * Js.value)) (file : string) :
  Js.lookup "file" fields = Js.Str file ->
  Path.extname file = ".enc" ->
  exists o,
    getLocalFileSourceOptions (Js.Obj fields) = Js.Return o
    /\ file_path o = file
    /\ encryption o
       = {| encryption_enabled := true;
            key := Some (Js.lookup "key" fields) |}.
Proof.
  intros Hfile Hext. unfold getLocalFileSourceOptions. simpl.
  rewrite Hfile. simpl. rewrite Hext. simpl.
  destruct (String.eqb _ ".gz"); eexists; repeat split.
Qed.

Lemma enc_options_carry_the_key_as_given_witness :
  exists o,
    getLocalFileSourceOptions
      (Js.Obj [("file", Js.Str "backups/report.gz.enc")]) = Js.Return o
    /\ file_path o = "backups/report.gz.enc"
    /\ encryption o
       = {| encryption_enabled := true; key := Some Js.Undefined |}.
Proof.
  apply (enc_options_carry_the_key_as_given
           [("file", Js.Str "backups/report.gz.enc")]
           "backups/report.gz.enc"); reflexivity.
Defined.

(** C4, as stated, fails: [report.enc] without a key yields options with
    encryption enabled and an undefined key, not an error. *)
Lemma enc_without_key_is_not_refused :
  getLocalFileSourceOptions (Js.Obj [("file", Js.Str "report.enc")])
  = Js.Return
      {| file_path := "report.enc";
         compression_enabled := false;
         encryption :=
           {| encryption_enabled := true; key := Some Js.Undefined |} |}.
Proof. reflexivity. Qed.

(** ** Failures of the orchestration *)

Lemma try_block_throws (w : world) (e : Js.error) :
  try_block w = Js.Throw e
  <-> transfer w = Js.Throw e
      \/ (exists results,
            transfer w = Js.Return results
            /\ (Js.get results "engine" = Js.Throw e
                \/ exists results_engine,
                     Js.get results "engine" = Js.Return results_engine
                     /\ buildTransferTable w results_engine = Js.Throw e)).
Proof.
  unfold try_block. destruct (transfer w) as [results | e0]; simpl.
  - destruct (Js.get results "engine") as [re | e1] eqn:Hget; simpl.
    + split.
      * intros H. right. exists results. split; [reflexivity |].
        right. exists re. split; [exact Hget | assumption].
      * intros [H | [r [Hr [H | [re' [Hre H]]]]]]; try discriminate;
          injection Hr as <-; rewrite Hget in *; try discriminate.
        injection Hre as <-. assumption.
    + split.
      * intros H. right. exists results. split; [reflexivity |].
        left. injection H as <-. exact Hget.
      * intros [H | [r [Hr [H | [re' [Hre H]]]]]]; try discriminate;
          injection Hr as <-; rewrite Hget in *; try discriminate.
        injection H as <-. reflexivity.
  - split.
    + intros H. left. injection H as <-. reflexivity.
    + intros [H | [r [Hr _]]]; [injection H as <-; reflexivity | discriminate].
Qed.

(** C7. When the awaited transfer throws, or the code that reports its
    result does, the command logs the failure and ends the process with code
    1 in the [catch]: the wait for the exit code is not entered (no poll is
    made), and the steps the event loop had still to run, continuations of
    the telemetry handlers included, are dropped. *)
Theorem orchestration_failure_exits_at_once
  (w : world) (fields : list (string * Js.value)) (o : source_options)
  (u : unit) (e : Js.error) :
  getLocalFileSourceOptions (Js.Obj fields) = Js.Return o ->
  setup w = Js.Return u ->
  (transfer w = Js.Throw e
   \/ exists results,
        transfer w = Js.Return results
        /\ (Js.get results "engine" = Js.Throw e
            \/ exists results_engine,
                 Js.get results "engine" = Js.Return results_engine
                 /\ buildTransferTable w results_engine = Js.Throw e)) ->
  command w (Js.Obj fields)
  = Exited
      {| code := 1;
         site := CatchBlock;
         final :=
           snd (run_until (the_engine w) (transferSettledAt w) (schedule w)
                  store_init);
         log := [info "Starting import...";
                 error "Import process failed unexpectedly:";
                 error_thrown e];
         polled := [];
         dropped :=
           fst (run_until (the_engine w) (transferSettledAt w) (schedule w)
                  store_init) |}.
Proof.
  intros Hopts Hsetup Hthrow. apply try_block_throws in Hthrow.
  unfold command. simpl. rewrite Hopts, Hsetup.
  destruct (run_until _ _ _ _) as [tl s]. rewrite Hthrow. reflexivity.
Qed.

Lemma orchestration_failure_exits_at_once_witness :
  command world_transfer_throws sample_opts
  = Exited
      {| code := 1;
         site := CatchBlock;
         final :=
           {| transferExitCode := None;
              awaiting := [transfer_finish];
              sent := [("didDEITSProcessStart",
                        telemetryPayload sample_engine Js.Undefined);
                       ("didDEITSProcessFinish",
                        telemetryPayload sample_engine Js.Undefined)];
              writes := [] |};
         log := [info "Starting import...";
                 error "Import process failed unexpectedly:";
                 error_thrown (Js.Thrown (Js.Str "ENOSPC"))];
         polled := [];
         dropped := [(40, Resolve transfer_finish)] |}.
Proof.
  apply (orchestration_failure_exits_at_once world_transfer_throws
           [("file", Js.Str "backups/export.tar.gz.enc");
            ("key", Js.Str "secret")]
           {| file_path := "backups/export.tar.gz.enc";
              compression_enabled := true;
              encryption :=
                {| encryption_enabled := true;
                   key := Some (Js.Str "secret") |} |}
           tt (Js.Thrown (Js.Str "ENOSPC"))).
  - reflexivity.
  - reflexivity.
  - left. reflexivity.
Defined.

(** ** The store and the event loop *)

Lemma run_until_cons (eng : engine) (now t : Z) (x : step) (rest : timeline)
  (s : store) :
  run_until eng now ((t, x) :: rest) s
  = if t <=? now then run_until eng now rest (run_step eng x s)
    else ((t, x) :: rest, s).
Proof. reflexivity. Qed.

(** Running the event loop up to [now] and then up to a later instant is
    running it up to the later instant. *)
Lemma run_until_twice (eng : engine) (now t : Z) (tl : timeline) :
  now <= t ->
  forall s,
    run_until eng t (fst (run_until eng now tl s))
      (snd (run_until eng now tl s))
    = run_until eng t tl s.
Proof.
  intros Hle. induction tl as [| [u x] rest IH]; intros s.
  - reflexivity.
  - rewrite (run_until_cons eng now). destruct (u <=? now) eqn:Hu.
    + rewrite IH. rewrite (run_until_cons eng t).
      apply Z.leb_le in Hu.
      assert (Hut : (u <=? t) = true) by (apply Z.leb_le; lia).
      now rewrite Hut.
    + reflexivity.
Qed.

Lemma assign_exit_code_keeps_set (e : event) (s : store) :
  is_set (transferExitCode s) ->
  is_set (transferExitCode (assign_exit_code e s)).
Proof.
  intros H. destruct e; simpl; [assumption | now exists 0 | now exists 1].
Qed.

Lemma run_step_keeps_set (eng : engine) (x : step) (s : store) :
  is_set (transferExitCode s) ->
  is_set (transferExitCode (run_step eng x s)).
Proof.
  intros H. destruct x as [e p | e]; simpl.
  - assumption.
  - destruct (resume e (awaiting s)); [| assumption].
    apply assign_exit_code_keeps_set. assumption.
Qed.

Lemma run_until_keeps_set (eng : engine) (now : Z) (tl : timeline) :
  forall s,
    is_set (transferExitCode s) ->
    is_set (transferExitCode (snd (run_until eng now tl s))).
Proof.
  induction tl as [| [u x] rest IH]; intros s H; simpl.
  - assumption.
  - destruct (u <=? now); simpl.
    + apply IH. apply run_step_keeps_set. assumption.
    + assumption.
Qed.

(** Once set, the slot stays set. *)
Lemma slot_at_stays_set (eng : engine) (tl : timeline) (s : store)
  (t t' : Z) :
  t <= t' ->
  is_set (slot_at eng tl s t) -> is_set (slot_at eng tl s t').
Proof.
  intros Hle H. unfold slot_at in *.
  rewrite <- (run_until_twice eng t t' tl Hle).
  apply run_until_keeps_set. assumption.
Qed.

Lemma slot_at_after (eng : engine) (tl : timeline) (s : store) (now t : Z) :
  now <= t ->
  slot_at eng (fst (run_until eng now tl s)) (snd (run_until eng now tl s)) t
  = slot_at eng tl s t.
Proof.
  intros Hle. unfold slot_at. now rewrite run_until_twice.
Qed.

(** ** The bounded wait *)

Lemma timer_after (w : world) (now : Z) : now + 50 <= timer w now.
Proof. unfold timer. lia. Qed.

Lemma wake_horizon_bounds (w : world) (u : Z) :
  u - 1 <= wake_horizon w u <= u.
Proof. unfold wake_horizon. destruct (wakesFirst w u); lia. Qed.

Lemma loop_view_start (w : world) (tl : timeline) (s : store) (start : Z) :
  loop_view w tl s start start = (tl, s).
Proof. unfold loop_view. now rewrite Z.eqb_refl. Qed.

(** What the loop finds at a later instant does not depend on the sleeps it
    took before. *)
Lemma loop_view_after (w : world) (tl : timeline) (s : store)
  (now next u : Z) :
  now < next -> next <= u ->
  loop_view w
    (fst (run_until (the_engine w) (wake_horizon w next) tl s))
    (snd (run_until (the_engine w) (wake_horizon w next) tl s)) next u
  = loop_view w tl s now u.
Proof.
  intros Hnext Hu. unfold loop_view.
  assert (Hnow : (u =? now) = false) by (apply Z.eqb_neq; lia).
  rewrite Hnow. destruct (u =? next) eqn:Heq.
  - apply Z.eqb_eq in Heq. subst u.
    now destruct (run_until (the_engine w) (wake_horizon w next) tl s).
  - apply Z.eqb_neq in Heq. apply run_until_twice.
    pose proof (wake_horizon_bounds w next).
    pose proof (wake_horizon_bounds w u). lia.
Qed.

Section BoundedWait.

Variable w : world.
Variables maxWait startTime : Z.

Let deadline : Z := startTime + maxWait.
Let eng : engine := the_engine w.

(** The loop, entered at the instant [now] with enough fuel for the polls
    that fit before the deadline, ends the process; it tells when, where and
    with which code. *)
Lemma poll_exits :
  forall (fuel : nat) (now : Z) (tl : timeline) (s : store)
         (lg : list log_entry) (seen : list Z),
    (1 <= fuel)%nat ->
    deadline - now <= 50 * (Z.of_nat fuel - 1) ->
    exists t x earlier,
      poll w fuel maxWait startTime now tl s lg seen = Some (t, x)
      /\ now <= t
      /\ (deadline <= now -> t = now)
      /\ (forall eps,
            (forall u, Z.of_nat (timerLateness w u) <= eps) ->
            now < deadline -> t < deadline + 50 + eps)
      /\ final x = snd (loop_view w tl s now t)
      /\ dropped x = fst (loop_view w tl s now t)
      /\ log x = lg
      /\ (forall u, In u earlier ->
                    now <= u < t /\ u < deadline /\ read_at w tl s now u = None)
      /\ ((site x = StatusPoll /\ t < deadline
           /\ transferExitCode (final x) = Some (code x)
           /\ polled x = (seen ++ earlier ++ [t])%list)
          \/ (site x = Timeout /\ code x = 0 /\ deadline <= t
              /\ polled x = (seen ++ earlier)%list))
      /\ (forall eps,
            (forall u, Z.of_nat (timerLateness w u) <= eps) ->
            now < deadline ->
            is_set (transferExitCode s)
            \/ (exists t0, now <= t0 /\ is_set (slot_at eng tl s t0)
                           /\ t0 + 50 + eps < deadline) ->
            site x = StatusPoll).
Proof.
  induction fuel as [| fuel IH]; intros now tl s lg seen Hfuel Hroom; [lia |].
  cbn [poll].
  destruct (now - startTime <? maxWait) eqn:Hcond.
  - apply Z.ltb_lt in Hcond.
    destruct (transferExitCode s) as [c |] eqn:Hslot.
    + exists now. eexists. exists []. split; [reflexivity |].
      rewrite loop_view_start. simpl.
      repeat split; try lia; try assumption; try contradiction.
      * intros eps Heps _. specialize (Heps now). subst deadline. lia.
      * left. repeat split; [subst deadline; lia | assumption].
    + pose proof (timer_after w now) as Hnext.
      cbv zeta. fold eng.
      destruct (run_until eng (wake_horizon w (timer w now)) tl s)
        as [tl1 s1] eqn:Hrun.
      assert (Htl1 : tl1 = fst (run_until eng (wake_horizon w (timer w now))
                                  tl s)) by now rewrite Hrun.
      assert (Hs1 : s1 = snd (run_until eng (wake_horizon w (timer w now))
                                tl s)) by now rewrite Hrun.
      pose proof (wake_horizon_bounds w (timer w now)) as Hh.
      destruct (IH (timer w now) tl1 s1 lg (seen ++ [now])%list) as
        (t & x & earlier & Hpoll & Hle & Hat & Hbound & Hfinal & Hdropped
         & Hlog & Hearlier & Hsite & Hearly).
      * subst deadline. lia.
      * subst deadline. lia.
      * exists t, x, (now :: earlier). split; [assumption |].
        assert (Hview : forall u, timer w now <= u ->
                  loop_view w tl1 s1 (timer w now) u = loop_view w tl s now u).
        { intros u Hu. rewrite Htl1, Hs1.
          apply loop_view_after; [lia | exact Hu]. }
        split; [lia |].
        split; [subst deadline; lia |].
        split.
        { intros eps Heps _.
          destruct (Z_lt_le_dec (timer w now) deadline) as [Hlt | Hge].
          - apply Hbound; assumption.
          - rewrite (Hat Hge). specialize (Heps now). unfold timer.
            subst deadline. lia. }
        split; [rewrite Hfinal, Hview by exact Hle; reflexivity |].
        split; [rewrite Hdropped, Hview by exact Hle; reflexivity |].
        split; [assumption |].
        split.
        { intros u [<- | Hin].
          - split; [lia |]. split; [subst deadline; lia |].
            unfold read_at. rewrite loop_view_start. exact Hslot.
          - destruct (Hearlier u Hin) as (Hu & Hud & Hnone).
            split; [lia |]. split; [exact Hud |].
            unfold read_at in *. rewrite Hview in Hnone by lia. exact Hnone. }
        split.
        { destruct Hsite as [(Hsp & Ht & Hc & Hp) | (Hto & Hc & Ht & Hp)].
          - left. repeat split; try assumption.
            rewrite Hp, <- app_assoc. reflexivity.
          - right. repeat split; try assumption.
            rewrite Hp, <- app_assoc. reflexivity. }
        intros eps Heps _ [[c Hc] | (t0 & Hnow & Hset & Hfits)];
          [discriminate |].
        pose proof (Heps now) as Hlate.
        assert (Htimer : timer w now <= now + 50 + eps)
          by (unfold timer; lia).
        destruct (Z_le_gt_dec t0 (wake_horizon w (timer w now)))
          as [Hran | Hnot].
        -- apply (Hearly eps Heps); [lia |]. left.
           apply (slot_at_stays_set eng tl s t0 _ Hran) in Hset.
           unfold slot_at in Hset. rewrite <- Hs1 in Hset. exact Hset.
        -- apply (Hearly eps Heps); [lia |]. right.
           exists t0. split; [lia |]. split; [| exact Hfits].
           rewrite Htl1, Hs1, slot_at_after by lia. exact Hset.
  - apply Z.ltb_ge in Hcond.
    exists now. eexists. exists []. split; [reflexivity |].
    rewrite loop_view_start. simpl.
    repeat split; try (subst deadline; lia); try assumption;
      try contradiction.
    right. repeat split; [subst deadline; lia | now rewrite app_nil_r].
Qed.

End BoundedWait.

Lemma waitForExitCode_fuel (maxWait : Z) :
  (1 <= Z.to_nat (maxWait / 50) + 2)%nat
  /\ maxWait <= 50 * (Z.of_nat (Z.to_nat (maxWait / 50) + 2) - 1).
Proof.
  split; [lia |].
  destruct (Z_lt_le_dec maxWait 0) as [Hneg | Hpos]; [lia |].
  assert (0 <= maxWait / 50) by (apply Z.div_pos; lia).
  pose proof (Z.mod_pos_bound maxWait 50 ltac:(lia)).
  pose proof (Z.div_mod maxWait 50 ltac:(lia)).
  lia.
Qed.

(** The wait always ends the process, whatever the timers and the handlers
    do. *)
Lemma waitForExitCode_exits (w : world) (maxWait startTime : Z)
  (tl : timeline) (s : store) (lg : list log_entry) :
  exists t x, waitForExitCode w maxWait startTime tl s lg = Some (t, x).
Proof.
  destruct (waitForExitCode_fuel maxWait) as [Hfuel Hroom].
  destruct (poll_exits w maxWait startTime _ startTime tl s lg [] Hfuel)
    as (t & x & earlier & H & _); [lia |].
  exists t, x. exact H.
Qed.

(** C2, as the code has it.  With timers that fire at most [eps] ms late and
    [maxWait] not negative, [waitForExitCode] ends the process no later than
    [maxWait + 50 + eps] ms after it started.  It ends either at the first
    poll that reads the slot set, which is before the deadline, with the code
    read, or after the deadline with code 0, every poll having read the slot
    unset.  If the slot is unset at the start and no handler sets it before
    the deadline, the code is 0.  If the slot is set at the start and
    [maxWait] is positive, the exit is at once; if a handler sets it at an
    instant [t0] with [t0 + 50 + eps] before the deadline, the exit is at a
    poll, with a recorded code. *)
Theorem waitForExitCode_bounded_wait
  (w : world) (maxWait startTime eps : Z) (tl : timeline) (s : store)
  (lg : list log_entry) :
  0 <= maxWait ->
  (forall u, Z.of_nat (timerLateness w u) <= eps) ->
  exists t x earlier,
    waitForExitCode w maxWait startTime tl s lg = Some (t, x)
    /\ startTime <= t <= startTime + maxWait + 50 + eps
    /\ (forall u, In u earlier ->
                  startTime <= u < t /\ u < startTime + maxWait
                  /\ read_at w tl s startTime u = None)
    /\ ((site x = StatusPoll
         /\ t < startTime + maxWait
         /\ read_at w tl s startTime t = Some (code x)
         /\ polled x = (earlier ++ [t])%list)
        \/ (site x = Timeout /\ code x = 0 /\ startTime + maxWait <= t
            /\ polled x = earlier))
    /\ (transferExitCode s = None ->
        (forall u, u < startTime + maxWait ->
                   slot_at (the_engine w) tl s u = None) ->
        site x = Timeout /\ code x = 0)
    /\ (is_set (transferExitCode s) ->
        0 < maxWait ->
        site x = StatusPoll /\ t = startTime
        /\ transferExitCode s = Some (code x))
    /\ (forall t0,
          startTime <= t0 ->
          is_set (slot_at (the_engine w) tl s t0) ->
          t0 + 50 + eps < startTime + maxWait ->
          site x = StatusPoll).
Proof.
  intros Hpos Heps.
  destruct (waitForExitCode_fuel maxWait) as [Hfuel Hroom].
  destruct (poll_exits w maxWait startTime _ startTime tl s lg [] Hfuel)
    as (t & x & earlier & Hpoll & Hle & Hat & Hbound & Hfinal & _ & _
        & Hearlier & Hsite & Hearly);
    [lia |].
  assert (Heps0 : 0 <= eps) by (specialize (Heps 0); lia).
  assert (Hread : site x = StatusPoll ->
                  read_at w tl s startTime t = Some (code x)).
  { intros Hsp. destruct Hsite as [(_ & _ & Hc & _) | (Ht & _)].
    - unfold read_at. rewrite <- Hfinal. exact Hc.
    - rewrite Hsp in Ht. discriminate. }
  exists t, x, earlier. split; [exact Hpoll |].
  split.
  { split; [lia |].
    destruct (Z_lt_le_dec startTime (startTime + maxWait)) as [Hlt | Hge].
    - specialize (Hbound eps Heps Hlt). lia.
    - rewrite (Hat Hge). lia. }
  split; [exact Hearlier |].
  split.
  { destruct Hsite as [(Hsp & Ht & Hc & Hp) | Hto].
    - left. repeat split;
        [exact Hsp | exact Ht | exact (Hread Hsp) | exact Hp].
    - right. exact Hto. }
  split.
  { intros Hunset Hnever.
    destruct Hsite as [(Hsp & Ht & _) | (Hto & Hc & _)];
      [| split; assumption].
    specialize (Hread Hsp). unfold read_at, loop_view in Hread.
    destruct (t =? startTime).
    - simpl in Hread. rewrite Hunset in Hread. discriminate.
    - pose proof (wake_horizon_bounds w t) as Hh.
      fold (slot_at (the_engine w) tl s (wake_horizon w t)) in Hread.
      rewrite Hnever in Hread by lia. discriminate. }
  split.
  { intros Hset Hmax.
    assert (Hsp : site x = StatusPoll)
      by (apply (Hearly eps Heps); [lia | left; exact Hset]).
    destruct (Z.eq_dec t startTime) as [-> | Hlater].
    - specialize (Hread Hsp). unfold read_at in Hread.
      rewrite loop_view_start in Hread. now repeat split.
    - exfalso. revert Hpoll. unfold waitForExitCode.
      destruct (Z.to_nat (maxWait / 50) + 2)%nat as [| fuel]; [lia |].
      cbn [poll].
      assert (Hc : (startTime - startTime <? maxWait) = true)
        by (apply Z.ltb_lt; lia).
      rewrite Hc. destruct Hset as [c Hset]. rewrite Hset.
      intros H. injection H as H _. lia. }
  intros t0 Hafter Hset Hfits.
  apply (Hearly eps Heps); [lia |]. right. exists t0. now repeat split.
Qed.

Lemma waitForExitCode_bounded_wait_witness :
  exists t x earlier,
    waitForExitCode world_finish 5000 1000 (schedule world_finish)
      store_init [] = Some (t, x)
    /\ 1000 <= t <= 1000 + 5000 + 50 + 3
    /\ (forall u, In u earlier ->
                  1000 <= u < t /\ u < 1000 + 5000
                  /\ read_at world_finish (schedule world_finish) store_init
                       1000 u = None)
    /\ ((site x = StatusPoll
         /\ t < 1000 + 5000
         /\ read_at world_finish (schedule world_finish) store_init 1000 t
            = Some (code x)
         /\ polled x = (earlier ++ [t])%list)
        \/ (site x = Timeout /\ code x = 0 /\ 1000 + 5000 <= t
            /\ polled x = earlier))
    /\ (transferExitCode store_init = None ->
        (forall u, u < 1000 + 5000 ->
                   slot_at (the_engine world_finish) (schedule world_finish)
                     store_init u = None) ->
        site x = Timeout /\ code x = 0)
    /\ (is_set (transferExitCode store_init) ->
        0 < 5000 ->
        site x = StatusPoll /\ t = 1000
        /\ transferExitCode store_init = Some (code x))
    /\ (forall t0,
          1000 <= t0 ->
          is_set (slot_at (the_engine world_finish) (schedule world_finish)
                    store_init t0) ->
          t0 + 50 + 3 < 1000 + 5000 ->
          site x = StatusPoll).
Proof.
  apply (waitForExitCode_bounded_wait world_finish 5000 1000 3
           (schedule world_finish) store_init []).
  - lia.
  - intros u. simpl. destruct (u <? 1100); lia.
Defined.

(** In the sample run the handler records 0 at 1120 ms; the polls are at
    1000, 1053 and 1106 ms (the first two timers are 3 ms late) and the one
    at 1156 ms ends the process with the recorded code. *)
Example waitForExitCode_sample :
  option_map
    (fun r => (fst r, code (snd r), site (snd r), polled (snd r)))
    (waitForExitCode world_finish 5000 1000 (schedule world_finish)
       store_init [])
  = Some (1156, 0, StatusPoll, [1000; 1053; 1106; 1156]).
Proof. reflexivity. Qed.

(** C2, as stated, fails: the handler records the code 1 at 4960 ms, before
    the deadline of 5000 ms; the last poll was at 4950 ms, the loop ends at
    5000 ms and the process exits with 0.  The same happens when the handler
    records the code in the millisecond of the last poll and the poll comes
    first.  With [maxWait = 0] a slot that is already set is not read at
    all. *)
Lemma status_set_before_deadline_missed :
  slot_at sample_engine (schedule world_late_error) store_init 4960 = Some 1
  /\ 4960 < 0 + 5000
  /\ option_map
       (fun r => (fst r, code (snd r), site (snd r),
                  transferExitCode (final (snd r)),
                  List.length (polled (snd r)),
                  last (polled (snd r)) 0))
       (waitForExitCode world_late_error 5000 0 (schedule world_late_error)
          store_init [])
     = Some (5000, 0, Timeout, Some 1, 100%nat, 4950)
  /\ slot_at sample_engine (schedule world_error_at_last_poll) store_init
       4950 = Some 1
  /\ option_map
       (fun r => (fst r, code (snd r), site (snd r),
                  transferExitCode (final (snd r)),
                  List.length (polled (snd r)),
                  last (polled (snd r)) 0))
       (waitForExitCode world_error_at_last_poll 5000 0
          (schedule world_error_at_last_poll) store_init [])
     = Some (5000, 0, Timeout, Some 1, 100%nat, 4950)
  /\ transferExitCode
       (snd (run_until sample_engine 5000 (schedule world_late_error)
               store_init)) = Some 1
  /\ option_map
       (fun r => (fst r, code (snd r), site (snd r),
                  transferExitCode (final (snd r)), polled (snd r)))
       (waitForExitCode world_late_error 0 5000 []
          (snd (run_until sample_engine 5000 (schedule world_late_error)
                  store_init)) [])
     = Some (5000, 0, Timeout, Some 1, []).
Proof. repeat split; vm_compute; reflexivity. Qed.

(** ** Who writes the slot, and how often *)

Lemma last_write_app (ws : list Z) (c : Z) :
  last_write (ws ++ [c]) = Some c.
Proof. unfold last_write. now rewrite rev_app_distr. Qed.

Lemma last_write_In (ws : list Z) (c : Z) :
  last_write ws = Some c -> In c ws.
Proof.
  unfold last_write. intros H. apply in_rev.
  destruct (rev ws) as [| c' rest]; [discriminate |].
  injection H as ->. now left.
Qed.


(** Only the continuation of a suspended handler of [transfer::finish] or
    [transfer::error] assigns the slot; the assignment is unconditional. *)
Lemma run_step_writes (eng : engine) (x : step) (s : store) :
  (writes (run_step eng x s) = writes s
   /\ transferExitCode (run_step eng x s) = transferExitCode s)
  \/ (exists e rest,
        x = Resolve e /\ is_terminal e = true
        /\ resume e (awaiting s) = Some rest
        /\ writes (run_step eng x s) = (writes s ++ [exit_code_of e])%list
        /\ transferExitCode (run_step eng x s) = Some (exit_code_of e)).
Proof.
  destruct x as [e p | e]; simpl.
  - left. split; reflexivity.
  - destruct (resume e (awaiting s)) as [rest |] eqn:Hres.
    + destruct e; simpl.
      * left. split; reflexivity.
      * right. exists transfer_finish, rest. repeat split. exact Hres.
      * right. exists transfer_error, rest. repeat split. exact Hres.
    + left. split; reflexivity.
Qed.

Lemma run_step_ok (eng : engine) (x : step) (s : store) :
  store_ok s -> store_ok (run_step eng x s).
Proof.
  intros [Hlast Hall]. unfold store_ok.
  destruct (run_step_writes eng x s) as
    [[Hw Hc] | (e & rest & _ & _ & _ & Hw & Hc)].
  - rewrite Hw, Hc. split; assumption.
  - rewrite Hw, Hc, last_write_app. split; [reflexivity |].
    apply Forall_app. split; [assumption |].
    constructor; [| constructor]. destruct e; simpl; lia.
Qed.

Lemma run_until_ok (eng : engine) (now : Z) (tl : timeline) :
  forall s, store_ok s -> store_ok (snd (run_until eng now tl s)).
Proof.
  induction tl as [| [u x] rest IH]; intros s H; simpl.
  - assumption.
  - destruct (u <=? now); simpl.
    + apply IH. apply run_step_ok. assumption.
    + assumption.
Qed.

Lemma store_init_ok : store_ok store_init.
Proof. split; [reflexivity | constructor]. Qed.




(** ** The exits of the command *)

(** The command never stays in the wait, and its promise rejects exactly
    when building the source options or the setup throws. *)
Lemma command_outcome (w : world) (opts : Js.value) :
  (exists x, command w opts = Exited x)
  \/ (exists e,
        command w opts = Rejected e
        /\ Js.isObject opts = true
        /\ (getLocalFileSourceOptions opts = Js.Throw e
            \/ setup w = Js.Throw e)).
Proof.
  unfold command. destruct (Js.isObject opts); simpl.
  - destruct (getLocalFileSourceOptions opts) as [o | e].
    + destruct (setup w) as [u | e].
      * destruct (run_until _ _ _ _) as [tl s].
        destruct (try_block w) as [table | e].
        -- match goal with
           | |- context [waitForExitCode w 5000 ?start tl s ?lg] =>
             destruct (waitForExitCode_exits w 5000 start tl s lg)
               as (t & x & H)
           end.
           rewrite H. left. now exists x.
        -- left. eexists. reflexivity.
      * right. exists e. repeat split. now right.
    + right. exists e. repeat split. now left.
  - left. eexists. reflexivity.
Qed.

Lemma command_horizon_bounds (w : world) (u : Z) :
  transferSettledAt w <= u ->
  transferSettledAt w <= command_horizon w u <= u
  /\ u - 1 <= command_horizon w u.
Proof.
  intros Hu. unfold command_horizon.
  destruct (u =? transferSettledAt w) eqn:Heq.
  - apply Z.eqb_eq in Heq. lia.
  - apply Z.eqb_neq in Heq. pose proof (wake_horizon_bounds w u). lia.
Qed.

(** What the loop of the command finds, read on the whole schedule. *)
Lemma command_view (w : world) (u : Z) :
  let eng := the_engine w in
  let settled := transferSettledAt w in
  settled <= u ->
  loop_view w (fst (run_until eng settled (schedule w) store_init))
    (snd (run_until eng settled (schedule w) store_init)) settled u
  = run_until eng (command_horizon w u) (schedule w) store_init.
Proof.
  intros eng settled Hu. unfold loop_view, command_horizon.
  fold settled. destruct (u =? settled) eqn:Heq.
  - now destruct (run_until eng settled (schedule w) store_init).
  - apply Z.eqb_neq in Heq. apply run_until_twice.
    pose proof (wake_horizon_bounds w u). lia.
Qed.

(** Where the command ends the process, and what the store is there. *)
Lemma command_exit (w : world) (opts : Js.value) (x : exit) :
  command w opts = Exited x ->
  let eng := the_engine w in
  let settled := transferSettledAt w in
  (site x = ArgumentCheck /\ Js.isObject opts = false /\ code x = 1
   /\ final x = store_init /\ dropped x = schedule w /\ polled x = [])
  \/ (site x = CatchBlock /\ Js.isObject opts = true
      /\ (exists e, try_block w = Js.Throw e)
      /\ code x = 1 /\ polled x = []
      /\ final x = snd (run_until eng settled (schedule w) store_init)
      /\ dropped x = fst (run_until eng settled (schedule w) store_init))
  \/ (Js.isObject opts = true
      /\ (exists table, try_block w = Js.Return table)
      /\ exists t earlier,
           settled <= t
           /\ final x
              = snd (run_until eng (command_horizon w t) (schedule w)
                       store_init)
           /\ dropped x
              = fst (run_until eng (command_horizon w t) (schedule w)
                       store_init)
           /\ (forall u, In u earlier ->
                         settled <= u < t /\ u < settled + 5000
                         /\ command_read w u = None)
           /\ ((site x = StatusPoll /\ t < settled + 5000
                /\ transferExitCode (final x) = Some (code x)
                /\ polled x = (earlier ++ [t])%list)
               \/ (site x = Timeout /\ code x = 0 /\ settled + 5000 <= t
                   /\ polled x = earlier))
           /\ (forall eps t0,
                 (forall u, Z.of_nat (timerLateness w u) <= eps) ->
                 is_set (slot_at eng (schedule w) store_init t0) ->
                 t0 <= settled \/ t0 + 50 + eps < settled + 5000 ->
                 site x = StatusPoll)).
Proof.
  intros Hcmd eng settled. unfold command in Hcmd.
  destruct (Js.isObject opts); simpl in Hcmd.
  - destruct (getLocalFileSourceOptions opts) as [o | e]; [| discriminate].
    destruct (setup w) as [u | e]; [| discriminate].
    fold eng settled in Hcmd.
    pose proof (command_view w) as Hview. cbv zeta in Hview.
    fold eng settled in Hview.
    destruct (run_until eng settled (schedule w) store_init) as [tl s] eqn:Hrun.
    simpl fst in Hview. simpl snd in Hview.
    assert (Htl : tl = fst (run_until eng settled (schedule w) store_init))
      by now rewrite Hrun.
    assert (Hs : s = snd (run_until eng settled (schedule w) store_init))
      by now rewrite Hrun.
    destruct (try_block w) as [table | e].
    + right. right. split; [reflexivity |]. split; [now exists table |].
      destruct (waitForExitCode_fuel 5000) as [Hfuel Hroom].
      unfold waitForExitCode in Hcmd.
      match type of Hcmd with
      | context [poll w _ 5000 settled settled tl s ?lg []] =>
        destruct (poll_exits w 5000 settled _ settled tl s lg [] Hfuel)
          as (t & x' & earlier & Hpoll & Hle & _ & _ & Hfinal & Hdropped & _
              & Hearlier & Hsite & Hearly); [lia |]
      end.
      rewrite Hpoll in Hcmd.
      injection Hcmd as <-.
      exists t, earlier. split; [exact Hle |].
      rewrite Hview in Hfinal, Hdropped by exact Hle.
      split; [exact Hfinal |].
      split; [exact Hdropped |].
      split.
      { intros v Hin. destruct (Hearlier v Hin) as (Hv & Hvd & Hnone).
        repeat split; try lia.
        unfold read_at in Hnone. rewrite Hview in Hnone by lia.
        exact Hnone. }
      split; [exact Hsite |].
      intros eps t0 Heps Hset Hwhen.
      apply (Hearly eps Heps); [lia |].
      destruct (Z_le_gt_dec t0 settled) as [Hbefore | Hafter].
      * left. apply (slot_at_stays_set eng _ _ t0 settled Hbefore) in Hset.
        unfold slot_at in Hset. rewrite <- Hs in Hset. exact Hset.
      * right. exists t0. split; [lia |]. split; [| lia].
        rewrite Htl, Hs, slot_at_after by lia. exact Hset.
    + right. left. injection Hcmd as <-. simpl.
      repeat split. now exists e.
  - left. injection Hcmd as <-. simpl. repeat split.
Qed.

Lemma exit_store_ok (w : world) (opts : Js.value) (x : exit) :
  command w opts = Exited x -> store_ok (final x).
Proof.
  intros H. destruct (command_exit w opts x H) as
    [(_ & _ & _ & Hf & _) | [(_ & _ & _ & _ & _ & Hf & _)
                            | (_ & _ & t & earlier & _ & Hf & _)]];
    rewrite Hf; try apply run_until_ok; apply store_init_ok.
Qed.

(** C5, as the code has it.  With timers that fire at most [eps] ms late,
    the command either lets its promise reject (building the source options
    or the setup threw) or ends the process with code 0 or 1.  The code is 0
    exactly when a poll of the wait read the status 0 in the slot, or the
    wait ran out, no poll having read a status there.  It is 1 exactly when
    the arguments are not an object, or the transfer or its report threw, or
    a poll read the status 1.  When nothing throws, a status the run records
    once, before the transfer settles or at an instant [t0] with
    [t0 + 50 + eps] before the deadline of the wait, is the exit code; and
    the code is 0 when no status is recorded before the deadline. *)
Theorem exit_code_of_the_command (w : world) (opts : Js.value) (eps : Z) :
  (forall u, Z.of_nat (timerLateness w u) <= eps) ->
  (exists e,
     command w opts = Rejected e
     /\ Js.isObject opts = true
     /\ (getLocalFileSourceOptions opts = Js.Throw e
         \/ setup w = Js.Throw e))
  \/ (exists x,
        command w opts = Exited x
        /\ (code x = 0 \/ code x = 1)
        /\ (code x = 0
            <-> (site x = StatusPoll /\ transferExitCode (final x) = Some 0)
                \/ site x = Timeout)
        /\ (code x = 1
            <-> site x = ArgumentCheck \/ site x = CatchBlock
                \/ (site x = StatusPoll
                    /\ transferExitCode (final x) = Some 1))
        /\ (site x = ArgumentCheck <-> Js.isObject opts = false)
        /\ (site x = CatchBlock
            <-> Js.isObject opts = true
                /\ exists e, try_block w = Js.Throw e)
        /\ (site x = StatusPoll
            <-> exists t,
                  In t (polled x)
                  /\ t < transferSettledAt w + 5000
                  /\ command_read w t = Some (code x))
        /\ (site x = Timeout
            <-> Js.isObject opts = true
                /\ (exists table, try_block w = Js.Return table)
                /\ forall t, In t (polled x) -> command_read w t = None)
        /\ (Js.isObject opts = true ->
            (exists table, try_block w = Js.Return table) ->
            (forall c t0,
               (forall u, u < t0 ->
                  slot_at (the_engine w) (schedule w) store_init u = None) ->
               (forall u, t0 <= u < transferSettledAt w + 5000 ->
                  slot_at (the_engine w) (schedule w) store_init u = Some c) ->
               t0 <= transferSettledAt w
               \/ t0 + 50 + eps < transferSettledAt w + 5000 ->
               site x = StatusPoll /\ code x = c)
            /\ ((forall u, u < transferSettledAt w + 5000 ->
                   slot_at (the_engine w) (schedule w) store_init u = None) ->
                site x = Timeout /\ code x = 0))).
Proof.
  intros Heps.
  destruct (command_outcome w opts) as [[x Hx] | Hrej]; [| now left].
  right. exists x. split; [exact Hx |].
  pose proof (exit_store_ok w opts x Hx) as [Hlast Hall].
  destruct (command_exit w opts x Hx) as
    [(Hsite & Hobj & Hcode & Hf & _ & Hp)
    | [(Hsite & Hobj & Hthrow & Hcode & Hp & Hf & _)
      | (Hobj & Hret & t & earlier & Hle & Hf & _ & Hearlier & Hwait
         & Hearly)]].
  - rewrite Hsite, Hcode, Hobj, Hp.
    repeat split; intros; break_hyps; settle_sites.
  - rewrite Hsite, Hcode, Hobj, Hp. destruct Hthrow as [e He].
    repeat split; intros; break_hyps; settle_sites;
      try (now exists e); congruence.
  - pose proof (command_horizon_bounds w t Hle) as Hh.
    assert (Hread : command_read w t = transferExitCode (final x))
      by (unfold command_read, slot_at; now rewrite Hf).
    assert (Hrecorded :
              forall c t0,
                (forall u, u < t0 ->
                   slot_at (the_engine w) (schedule w) store_init u = None) ->
                (forall u, t0 <= u < transferSettledAt w + 5000 ->
                   slot_at (the_engine w) (schedule w) store_init u
                   = Some c) ->
                t0 <= transferSettledAt w
                \/ t0 + 50 + eps < transferSettledAt w + 5000 ->
                site x = StatusPoll /\ code x = c).
    { intros c t0 Hbefore Hfrom Hwhen.
      assert (Heps0 : 0 <= eps) by (specialize (Heps 0); lia).
      assert (Hsp : site x = StatusPoll).
      { apply (Hearly eps (Z.max t0 (transferSettledAt w)) Heps).
        - exists c. apply Hfrom. lia.
        - destruct Hwhen as [Hw | Hw]; [left; lia |].
          destruct (Z_le_gt_dec t0 (transferSettledAt w));
            [left | right]; lia. }
      split; [exact Hsp |].
      destruct Hwait as [(_ & Ht & Hc & _) | (Hto & _)];
        [| rewrite Hsp in Hto; discriminate].
      rewrite <- Hread in Hc. unfold command_read in Hc.
      destruct (Z_lt_le_dec (command_horizon w t) t0) as [Hlt | Hge].
      - rewrite (Hbefore _ Hlt) in Hc. discriminate.
      - rewrite Hfrom in Hc by lia. now injection Hc. }
    destruct Hwait as [(Hsite & Ht & Hc & Hp) | (Hsite & Hc & Ht & Hp)].
    + assert (Hin : In (code x) (writes (final x))).
      { apply last_write_In. rewrite <- Hlast. exact Hc. }
      assert (Hcode : code x = 0 \/ code x = 1).
      { rewrite Forall_forall in Hall. apply Hall. exact Hin. }
      split; [exact Hcode |].
      split.
      { split.
        - intros H0. left. split; [exact Hsite | now rewrite Hc, H0].
        - rewrite Hc, Hsite.
          intros [[_ H] | H]; [now injection H | discriminate]. }
      split.
      { split.
        - intros H1. right. right. split; [exact Hsite | now rewrite Hc, H1].
        - rewrite Hc, Hsite.
          intros [H | [H | [_ H]]]; try discriminate. now injection H. }
      rewrite Hsite, Hobj, Hp.
      split; [split; intros; discriminate |].
      split; [split; [intros; discriminate | intros [_ [e He]]] |].
      { destruct Hret as [table Htab]. rewrite He in Htab. discriminate. }
      split.
      { split; [| reflexivity]. intros _. exists t.
        split; [apply in_or_app; right; now left |].
        split; [exact Ht |]. now rewrite Hread. }
      split.
      { split; [intros; discriminate |].
        intros (_ & _ & Hnone). exfalso.
        assert (Hlast_poll : In t (earlier ++ [t]))
          by (apply in_or_app; right; now left).
        specialize (Hnone t Hlast_poll).
        rewrite Hread, Hc in Hnone. discriminate. }
      intros _ _. split.
      { intros c t0 Hbefore Hfrom Hwhen.
        destruct (Hrecorded c t0 Hbefore Hfrom Hwhen) as [_ Hcode'].
        now split. }
      intros Hnever. exfalso.
      rewrite <- Hread in Hc. unfold command_read in Hc.
      rewrite Hnever in Hc by lia. discriminate.
    + rewrite Hsite, Hc, Hobj, Hp.
      split; [now left |].
      split; [split; [intros _; now right | reflexivity] |].
      split.
      { split; [discriminate |].
        intros [H | [H | [H _]]]; discriminate. }
      split; [split; intros; discriminate |].
      split; [split; [intros; discriminate | intros [_ [e He]]] |].
      { destruct Hret as [table Htab]. rewrite He in Htab. discriminate. }
      split.
      { split; [intros; discriminate |].
        intros (u & Hin & _ & Hu). exfalso.
        destruct (Hearlier u Hin) as (_ & _ & Hnone).
        rewrite Hnone in Hu. discriminate. }
      split.
      { split; [| reflexivity]. intros _.
        split; [reflexivity |]. split; [exact Hret |].
        intros u Hin. now destruct (Hearlier u Hin) as (_ & _ & Hnone). }
      intros _ _. split; [| intros _; now split].
      intros c t0 Hbefore Hfrom Hwhen.
      destruct (Hrecorded c t0 Hbefore Hfrom Hwhen) as [Hsp _].
      rewrite Hsite in Hsp. discriminate.
Qed.

(** A run in which the error handler records its status 180 ms after the
    start, 20 ms before the transfer settles: the first poll reads it and
    the process exits with 1. *)
Lemma exit_code_of_the_command_witness :
  (forall u, Z.of_nat (timerLateness world_error_recorded u) <= 0)
  /\ exists x,
       command world_error_recorded sample_opts = Exited x
       /\ site x = StatusPoll /\ code x = 1 /\ polled x = [200].
Proof.
  assert (Heps : forall u,
             Z.of_nat (timerLateness world_error_recorded u) <= 0)
    by (intros u; simpl; lia).
  split; [exact Heps |].
  destruct (exit_code_of_the_command world_error_recorded sample_opts 0 Heps)
    as [(e & Hrej & _) | (x & Hx & _ & _ & _ & _ & _ & _ & _ & Hrec)].
  - vm_compute in Hrej. discriminate.
  - exists x. split; [exact Hx |].
    destruct Hrec as [Hrec _]; [reflexivity | eexists; reflexivity |].
    destruct (Hrec 1 180) as [Hsp Hc].
    + intros u Hu. unfold slot_at. simpl.
      repeat (match goal with
              | |- context [?a <=? u] => destruct (a <=? u) eqn:?; simpl
              end); try reflexivity; lia.
    + intros u Hu. unfold slot_at. simpl.
      repeat (match goal with
              | |- context [?a <=? u] => destruct (a <=? u) eqn:?; simpl
              end); try reflexivity; lia.
    + left. simpl. lia.
    + split; [exact Hsp |]. split; [exact Hc |].
      vm_compute in Hx. injection Hx as <-. reflexivity.
Defined.

(** C5, as stated, fails: the run ends with an error, the arguments are
    valid and nothing is thrown; the handler records the status 1 at 4960 ms,
    after the last poll (4950 ms), and the process exits with code 0 at the
    end of the wait although the slot holds 1.  An options object without a
    file makes the promise of the command reject: there is no exit code. *)
Lemma recorded_error_status_exits_with_0 :
  (exists x,
     command world_late_error sample_opts = Exited x
     /\ code x = 0
     /\ site x = Timeout
     /\ transferExitCode (final x) = Some 1
     /\ writes (final x) = [1]
     /\ last (polled x) 0 = 4950)
  /\ (exists e,
        command world_late_error (Js.Obj [("key", Js.Str "secret")])
        = Rejected e).
Proof.
  split; eexists; [split; [vm_compute; reflexivity |] |];
    [repeat split | vm_compute; reflexivity].
Qed.

(** A run that records its status in time, for comparison. *)
Example command_sample :
  exists x,
    command world_finish sample_opts = Exited x
    /\ code x = 0
    /\ site x = StatusPoll
    /\ polled x = [1000; 1053; 1106; 1156].
Proof. eexists. split; [vm_compute; reflexivity |]. repeat split. Qed.




(** ** Archive names *)

Example extname_samples :
  Path.extname "report.gz.enc" = ".enc"
  /\ Path.extname "report.enc.gz" = ".gz"
  /\ Path.extname "report" = ""
  /\ Path.extname ".enc" = ""
  /\ Path.extname "backups/.enc" = ""
  /\ Path.extname "report.enc/" = ".enc"
  /\ Path.extname ".." = ""
  /\ Path.extname "report." = ".".
Proof. repeat split; vm_compute; reflexivity. Qed.

Example parse_sample :
  Path.parse "/tmp/report.gz.enc"
  = {| Path.root := "/"; Path.dir := "/tmp"; Path.base := "report.gz.enc";
       Path.ext := ".enc"; Path.name := "report.gz" |}.
Proof. vm_compute. reflexivity. Qed.

Lemma chars_append (a b : string) : chars (a ++ b) = (chars a ++ chars b)%list.
Proof.
  unfold chars. induction a as [| c a IH]; simpl; [reflexivity |].
  now rewrite IH.
Qed.

Lemma chars_length (a : string) : List.length (chars a) = String.length a.
Proof.
  unfold chars. induction a as [| c a IH]; simpl; [reflexivity |].
  now rewrite IH.
Qed.

Lemma get_nth_error (a : string) :
  forall n, String.get n a = nth_error (chars a) n.
Proof.
  unfold chars. induction a as [| c a IH]; intros [| n]; simpl;
    try reflexivity.
  apply IH.
Qed.

Lemma substring_chars (a : string) :
  forall n m,
    String.substring n m a
    = string_of_list_ascii (firstn m (skipn n (chars a))).
Proof.
  unfold chars. induction a as [| c a IH]; intros [| n] [| m]; simpl;
    try reflexivity.
  - now rewrite (IH 0%nat m).
  - now rewrite (IH n 0%nat).
  - now rewrite (IH n (S m)).
Qed.

Lemma append_assoc (a b c : string) : (a ++ b) ++ c = a ++ (b ++ c).
Proof. induction a as [| x a IH]; simpl; [reflexivity | now rewrite IH]. Qed.

Lemma firstn_succ_nth_error {A} (l : list A) :
  forall n c,
    nth_error l n = Some c -> firstn (S n) l = (firstn n l ++ [c])%list.
Proof.
  induction l as [| x l IH]; intros [| n] c H; simpl in *; try discriminate.
  - now injection H as ->.
  - now rewrite (IH n c H).
Qed.

(** The loop over the indices is the loop over the characters. *)
Lemma scan_scan_rev (path : string) (start : nat) :
  forall n st,
    (n <= String.length path)%nat ->
    Path.scan path start n st
    = scan_rev start (rev (firstn n (chars path))) st.
Proof.
  induction n as [| n IH]; intros st Hn; [reflexivity |].
  assert (Hlt : (n < List.length (chars path))%nat)
    by (rewrite chars_length; lia).
  destruct (nth_error (chars path) n) as [c |] eqn:Hc.
  2: { apply nth_error_None in Hc. lia. }
  rewrite (firstn_succ_nth_error _ _ _ Hc), rev_app_distr. simpl.
  rewrite get_nth_error, Hc, length_rev, length_firstn.
  replace (Nat.min n (List.length (chars path))) with n by lia.
  destruct (n <? start)%nat; [reflexivity |].
  destruct (Ascii.eqb c Path.CHAR_FORWARD_SLASH).
  - destruct (negb (Path.matchedSlash st)); [reflexivity |].
    apply IH. lia.
  - apply IH. lia.
Qed.

Lemma scan_all (path : string) (start : nat) :
  Path.scan path start (String.length path) Path.scan_init
  = scan_rev start (rev (chars path)) Path.scan_init.
Proof.
  rewrite scan_scan_rev by lia.
  now rewrite <- chars_length, firstn_all.
Qed.

Lemma word_char_not_slash (c : ascii) :
  word_char c = true -> Ascii.eqb c Path.CHAR_FORWARD_SLASH = false.
Proof.
  unfold word_char, not_slash. intros H. apply andb_true_iff in H.
  destruct H as [H _]. now apply negb_true_iff in H.
Qed.

Lemma word_char_not_dot (c : ascii) :
  word_char c = true -> Ascii.eqb c Path.CHAR_DOT = false.
Proof.
  unfold word_char. intros H. apply andb_true_iff in H.
  destruct H as [_ H]. now apply negb_true_iff in H.
Qed.

(** Before the first dot, a character of a word only marks the end. *)
Lemma scan_char_word_first (c : ascii) (i : Z) :
  word_char c = true ->
  Path.scan_char c i Path.scan_init
  = {| Path.startDot := -1; Path.startPart := 0; Path.end_ := i + 1;
       Path.matchedSlash := false; Path.preDotState := 0 |}.
Proof.
  intros H. unfold Path.scan_char. simpl.
  rewrite (word_char_not_dot c H). reflexivity.
Qed.

Lemma scan_char_word_idle (c : ascii) (i : Z) (st : Path.scan_state) :
  word_char c = true ->
  Path.startDot st = -1 -> Path.end_ st <> -1 ->
  Path.scan_char c i st = st.
Proof.
  intros H Hdot Hend. unfold Path.scan_char.
  rewrite (word_char_not_dot c H).
  destruct (Z.eqb_spec (Path.end_ st) (-1)); [contradiction |].
  rewrite Hdot. reflexivity.
Qed.

Lemma scan_rev_word_idle (start : nat) (tail : list ascii) :
  forall rs st,
    forallb word_char rs = true ->
    Path.startDot st = -1 -> Path.end_ st <> -1 ->
    (start <= List.length tail)%nat ->
    scan_rev start (rs ++ tail) st = scan_rev start tail st.
Proof.
  induction rs as [| c rs IH]; intros st Hall Hdot Hend Hstart;
    [reflexivity |].
  simpl in Hall. apply andb_true_iff in Hall. destruct Hall as [Hc Hall].
  simpl. rewrite length_app.
  destruct (Nat.ltb_spec (List.length rs + List.length tail) start) as [Hlt | _];
    [lia |].
  rewrite (word_char_not_slash c Hc), scan_char_word_idle by assumption.
  apply IH; assumption.
Qed.

Lemma scan_char_settled (d e : Z) (c : ascii) (i : Z) (st : Path.scan_state) :
  d <> -1 -> e <> -1 -> settled d e st ->
  settled d e (Path.scan_char c i st)
  /\ Path.startPart (Path.scan_char c i st) = Path.startPart st.
Proof.
  intros Hd He (Hdot & Hend & Hms & Hpre). unfold settled, Path.scan_char.
  destruct st as [sd sp en ms pd]. simpl in *. subst.
  decide_tests; simpl; repeat split; try reflexivity; try lia.
Qed.

Lemma scan_rev_settled (start : nat) (d e : Z) :
  d <> -1 -> e <> -1 ->
  forall rp st,
    settled d e st ->
    settled d e (scan_rev start rp st)
    /\ Path.startPart (scan_rev start rp st)
       = part_start start rp (Path.startPart st).
Proof.
  intros Hd He. induction rp as [| c rp IH]; intros st Hst; simpl.
  - split; [assumption | reflexivity].
  - destruct (List.length rp <? start)%nat; [split; [assumption | reflexivity] |].
    destruct (Ascii.eqb c Path.CHAR_FORWARD_SLASH).
    + destruct Hst as (Hdot & Hend & Hms & Hpre). rewrite Hms. simpl.
      repeat split; assumption.
    + destruct (scan_char_settled d e c (Z.of_nat (List.length rp)) st Hd He Hst)
        as [Hst' Hsp].
      rewrite <- Hsp. apply IH. assumption.
Qed.

(** The dot that starts the extension, then the character before it. *)
Lemma scan_char_dot_then (c : ascii) (i j e : Z) :
  j <> -1 -> e <> -1 ->
  let st0 :=
    {| Path.startDot := -1; Path.startPart := 0; Path.end_ := e;
       Path.matchedSlash := false; Path.preDotState := 0 |} in
  settled j e (Path.scan_char c i (Path.scan_char "."%char j st0))
  /\ Path.startPart (Path.scan_char c i (Path.scan_char "."%char j st0)) = 0.
Proof.
  intros Hj He st0. subst st0. unfold settled, Path.scan_char.
  change (Ascii.eqb "."%char Path.CHAR_DOT) with true. cbn.
  decide_tests; cbn; decide_tests; cbn; repeat split; lia.
Qed.

Lemma is_word_chars (s : string) :
  is_word s = true ->
  chars s <> [] /\ forallb word_char (chars s) = true.
Proof.
  unfold is_word. destruct (chars s) as [| c l]; [discriminate |].
  intros H. split; [discriminate | exact H].
Qed.

Lemma names_file_chars (b : string) :
  names_file b = true ->
  exists c rb,
    rev (chars b) = c :: rb
    /\ Ascii.eqb c Path.CHAR_FORWARD_SLASH = false.
Proof.
  unfold names_file, not_slash. destruct (rev (chars b)) as [| c rb];
    [discriminate |].
  intros H. exists c, rb. split; [reflexivity |].
  now apply negb_true_iff in H.
Qed.

Lemma rev_chars_extension (b s : string) :
  rev (chars (b ++ String "." s))
  = (rev (chars s) ++ "."%char :: rev (chars b))%list.
Proof.
  rewrite chars_append. change (chars (String "." s)) with ("."%char :: chars s).
  rewrite rev_app_distr. simpl. now rewrite <- app_assoc.
Qed.

(** The scan of [b.s], where [b] names a file and [s] is a word: the
    extension starts at the dot that follows [b] and runs to the end, and a
    character stands before the dot. *)
Lemma scan_rev_extension (start : nat) (b s : string) :
  is_word s = true -> names_file b = true ->
  (start < String.length b)%nat ->
  let st := scan_rev start (rev (chars (b ++ String "." s))) Path.scan_init in
  Path.startDot st = Z.of_nat (String.length b)
  /\ Path.end_ st = Z.of_nat (String.length b) + 1 + Z.of_nat (String.length s)
  /\ Path.preDotState st <> 0
  /\ Path.startPart st = part_start start (rev (chars b)) 0.
Proof.
  intros Hs Hb Hstart st. subst st.
  destruct (is_word_chars s Hs) as [Hne Hall].
  destruct (names_file_chars b Hb) as (c & rb & Hrb & Hc).
  assert (Hlenb : String.length b = S (List.length rb)).
  { rewrite <- chars_length, <- length_rev, Hrb. reflexivity. }
  assert (Hlens : String.length s = List.length (rev (chars s))).
  { now rewrite length_rev, chars_length. }
  assert (Hallr : forallb word_char (rev (chars s)) = true).
  { rewrite forallb_forall in *. intros x Hx. apply Hall.
    now apply in_rev. }
  rewrite rev_chars_extension, Hrb.
  destruct (rev (chars s)) as [| c0 rs] eqn:Hrs.
  { exfalso. apply Hne. apply (f_equal (@rev ascii)) in Hrs.
    now rewrite rev_involutive in Hrs. }
  simpl in Hallr. apply andb_true_iff in Hallr. destruct Hallr as [Hc0 Hrest].
  (* the last character of the word *)
  cbn [scan_rev app].
  rewrite length_app. cbn [List.length].
  destruct (Nat.ltb_spec (List.length rs + S (S (List.length rb))) start)
    as [Hlt | _]; [lia |].
  rewrite (word_char_not_slash c0 Hc0), (scan_char_word_first c0 _ Hc0).
  (* the rest of the word *)
  rewrite scan_rev_word_idle; try assumption; try reflexivity;
    [| simpl; lia | simpl; lia].
  (* the dot *)
  cbn [scan_rev List.length].
  destruct (Nat.ltb_spec (S (List.length rb)) start) as [Hlt | _]; [lia |].
  change (Ascii.eqb "."%char Path.CHAR_FORWARD_SLASH) with false. cbv iota.
  (* the character before the dot *)
  destruct (Nat.ltb_spec (List.length rb) start) as [Hlt | _]; [lia |].
  rewrite Hc.
  set (d := Z.of_nat (S (List.length rb))).
  set (e := Z.of_nat (List.length rs + S (S (List.length rb))) + 1).
  match goal with
  | |- context [scan_rev start rb ?st0] =>
    assert (Hst0 : settled d e st0 /\ Path.startPart st0 = 0)
  end.
  { apply scan_char_dot_then; subst d e; lia. }
  destruct Hst0 as [Hst0 Hsp0].
  destruct (scan_rev_settled start d e ltac:(subst d; lia) ltac:(subst e; lia)
              rb _ Hst0) as [(Hdot & Hend & _ & Hpre) Hsp].
  rewrite Hdot, Hend, Hsp, Hsp0.
  repeat split.
  - subst d. now rewrite Hlenb.
  - subst e. rewrite Hlenb, Hlens. cbn [List.length]. lia.
  - exact Hpre.
  - cbn [part_start].
    destruct (Nat.ltb_spec (List.length rb) start) as [Hlt | _]; [lia |].
    now rewrite Hc.
Qed.

Lemma slice_within (s : string) (a b : Z) :
  0 <= a <= b -> b <= Z.of_nat (String.length s) ->
  Js.slice s a b
  = string_of_list_ascii
      (firstn (Z.to_nat (b - a)) (skipn (Z.to_nat a) (chars s))).
Proof.
  intros Hab Hb. unfold Js.slice.
  destruct (Z.ltb_spec a 0) as [Ha | _]; [lia |].
  destruct (Z.ltb_spec b 0) as [Hb0 | _]; [lia |].
  rewrite !Z.min_l by lia. rewrite Z.max_l by lia.
  apply substring_chars.
Qed.

Lemma take_while_length (f : ascii -> bool) (l : list ascii) :
  (List.length (take_while f l) <= List.length l)%nat.
Proof.
  induction l as [| c l IH]; simpl; [lia |].
  destruct (f c); simpl; lia.
Qed.

Lemma take_while_prefix (f : ascii -> bool) (l : list ascii) :
  firstn (List.length (take_while f l)) l = take_while f l.
Proof.
  induction l as [| c l IH]; simpl; [reflexivity |].
  destruct (f c); simpl; [now rewrite IH | reflexivity].
Qed.

Lemma take_while_app_all (f : ascii -> bool) (l tail : list ascii) :
  forallb f l = true ->
  take_while f (l ++ tail) = (l ++ take_while f tail)%list.
Proof.
  induction l as [| c l IH]; simpl; intros H; [reflexivity |].
  apply andb_true_iff in H. destruct H as [Hc Hl].
  now rewrite Hc, IH.
Qed.

(** The index at which the last component starts, as [parse] computes it:
    the length of what precedes the component. *)
Lemma part_start_component (isAbsolute : bool) (rb : list ascii) :
  isAbsolute = Ascii.eqb (last rb "a"%char) Path.CHAR_FORWARD_SLASH ->
  let start := if isAbsolute then 1%nat else 0%nat in
  (if (part_start start rb 0 =? 0) && isAbsolute
   then 1 else part_start start rb 0)
  = Z.of_nat (List.length rb - List.length (take_while not_slash rb)).
Proof.
  intros Habs start. induction rb as [| c rb IH].
  - simpl in *. subst isAbsolute. reflexivity.
  - cbn [part_start take_while List.length]. unfold not_slash at 1.
    destruct (Nat.ltb_spec (List.length rb) start) as [Hlt | Hge].
    + (* the leading separator of an absolute path, which the loop skips *)
      assert (isAbsolute = true /\ rb = []) as [Htrue ->].
      { subst start. destruct isAbsolute; [| lia].
        split; [reflexivity |]. destruct rb; [reflexivity | simpl in Hlt; lia]. }
      simpl in Habs. rewrite <- Habs, Htrue. reflexivity.
    + destruct (Ascii.eqb c Path.CHAR_FORWARD_SLASH) eqn:Hc; simpl negb;
        cbv iota.
      * destruct (Z.eqb_spec (Z.of_nat (List.length rb) + 1) 0); [lia |].
        simpl. lia.
      * assert (Hrb : isAbsolute
                      = Ascii.eqb (last rb "a"%char) Path.CHAR_FORWARD_SLASH).
        { destruct rb as [| c' rb'].
          - simpl in *. rewrite Hc in Habs. subst isAbsolute. reflexivity.
          - exact Habs. }
        rewrite (IH Hrb). cbn [List.length].
        reflexivity.
Qed.

Lemma last_rev_chars (c0 : ascii) (b' : string) (d : ascii) :
  last (rev (chars (String c0 b'))) d = c0.
Proof.
  change (chars (String c0 b')) with (c0 :: chars b'). simpl.
  apply last_last.
Qed.

Lemma names_file_length (b : string) :
  names_file b = true -> (0 < String.length b)%nat.
Proof.
  intros H. destruct (names_file_chars b H) as (c & rb & Hrb & _).
  rewrite <- chars_length, <- length_rev, Hrb. simpl. lia.
Qed.

Lemma append_length (a b : string) :
  String.length (a ++ b) = (String.length a + String.length b)%nat.
Proof. rewrite <- !chars_length, chars_append. apply length_app. Qed.

(** [extname] of a name that ends in a dot and a word is that dot and
    word. *)
Lemma extname_extension (b s : string) :
  names_file b = true -> is_word s = true ->
  Path.extname (b ++ String "." s) = String "." s.
Proof.
  intros Hb Hs. unfold Path.extname. rewrite scan_all.
  pose proof (names_file_length b Hb) as Hlen.
  destruct (scan_rev_extension 0 b s Hs Hb Hlen) as (Hdot & Hend & Hpre & _).
  destruct (is_word_chars s Hs) as [Hne _].
  assert (Hslen : (0 < String.length s)%nat).
  { rewrite <- chars_length. destruct (chars s); [contradiction | simpl; lia]. }
  set (st := scan_rev 0 (rev (chars (b ++ String "." s))) Path.scan_init) in *.
  unfold Path.no_extension. rewrite Hdot, Hend.
  destruct (Z.eqb_spec (Z.of_nat (String.length b) + 1
                        + Z.of_nat (String.length s)) (-1)); [lia |].
  destruct (Z.eqb_spec (Z.of_nat (String.length b)) (-1)); [lia |].
  destruct (Z.eqb_spec (Path.preDotState st) 0); [contradiction |].
  destruct (Z.eqb_spec (Z.of_nat (String.length b))
              (Z.of_nat (String.length b) + 1
               + Z.of_nat (String.length s) - 1)); [lia |].
  rewrite andb_false_r. simpl orb. cbv iota.
  rewrite slice_within.
  - rewrite chars_append, skipn_app, Nat2Z.id, <- chars_length, skipn_all.
    rewrite Nat.sub_diag. simpl skipn. simpl app.
    replace (Z.to_nat _) with (List.length (chars (String "." s))).
    + rewrite firstn_all.
      exact (string_of_list_ascii_of_string (String "." s)).
    + rewrite !chars_length. simpl String.length. lia.
  - lia.
  - rewrite append_length. simpl String.length. lia.
Qed.

(** [parse] of such a name gives, as [name], the last component of what
    precedes the extension. *)
Lemma parse_name_extension (b s : string) :
  names_file b = true -> is_word s = true ->
  Path.name (Path.parse (b ++ String "." s)) = last_component b.
Proof.
  intros Hb Hs.
  pose proof (names_file_length b Hb) as Hlen.
  destruct b as [| c0 b']; [simpl in Hlen; lia |].
  change (String c0 b' ++ String "." s) with (String c0 (b' ++ String "." s)).
  unfold Path.parse.
  change (String c0 (b' ++ String "." s)) with (String c0 b' ++ String "." s).
  set (b := String c0 b') in *. set (path := b ++ String "." s).
  set (isAbsolute := Ascii.eqb c0 Path.CHAR_FORWARD_SLASH).
  set (start := if isAbsolute then 1%nat else 0%nat).
  assert (Hstart : (start < String.length b)%nat).
  { subst start. destruct isAbsolute eqn:Habs; [| exact Hlen].
    destruct b' as [| c1 b'']; [| simpl; lia].
    exfalso. subst b isAbsolute. unfold names_file, not_slash in Hb.
    simpl in Hb. rewrite Habs in Hb. discriminate. }
  assert (Habs : isAbsolute
                 = Ascii.eqb (last (rev (chars b)) "a"%char)
                     Path.CHAR_FORWARD_SLASH).
  { subst b. now rewrite last_rev_chars. }
  clearbody b.
  rewrite scan_all.
  destruct (scan_rev_extension start b s Hs Hb Hstart)
    as (Hdot & Hend & Hpre & Hpart).
  fold path in Hdot, Hend, Hpre, Hpart.
  set (st := scan_rev start (rev (chars path)) Path.scan_init) in *.
  destruct (is_word_chars s Hs) as [Hne _].
  assert (Hslen : (0 < String.length s)%nat).
  { rewrite <- chars_length. destruct (chars s); [contradiction | simpl; lia]. }
  unfold Path.no_extension. rewrite Hdot, Hend.
  destruct (Z.eqb_spec (Z.of_nat (String.length b) + 1
                        + Z.of_nat (String.length s)) (-1)); [lia |].
  destruct (Z.eqb_spec (Z.of_nat (String.length b)) (-1)); [lia |].
  destruct (Z.eqb_spec (Path.preDotState st) 0); [contradiction |].
  destruct (Z.eqb_spec (Z.of_nat (String.length b))
              (Z.of_nat (String.length b) + 1
               + Z.of_nat (String.length s) - 1)); [lia |].
  rewrite andb_false_r. simpl orb. cbv iota. cbn [Path.name].
  rewrite Hpart.
  pose proof (part_start_component isAbsolute (rev (chars b)) Habs) as Hcomp.
  cbv zeta in Hcomp. fold start in Hcomp. rewrite Hcomp. clear Hcomp.
  set (k := List.length (take_while not_slash (rev (chars b)))).
  assert (Hk : (k <= List.length (chars b))%nat).
  { subst k. rewrite <- (length_rev (chars b)). apply take_while_length. }
  rewrite length_rev.
  rewrite slice_within.
  - unfold last_component, path.
    rewrite chars_append, skipn_app, Nat2Z.id.
    replace (List.length (chars b) - k - List.length (chars b))%nat
      with 0%nat by lia.
    simpl skipn.
    replace (Z.to_nat _) with k by (rewrite chars_length in *; lia).
    rewrite firstn_app.
    assert (Hskip : skipn (List.length (chars b) - k) (chars b)
                    = rev (take_while not_slash (rev (chars b)))).
    { rewrite <- (take_while_prefix not_slash (rev (chars b))). fold k.
      rewrite firstn_rev, rev_involutive. reflexivity. }
    rewrite Hskip, length_rev. fold k. rewrite Nat.sub_diag. simpl firstn.
    rewrite app_nil_r.
    replace k with (List.length (rev (take_while not_slash (rev (chars b)))))
      at 1 by (rewrite length_rev; reflexivity).
    now rewrite firstn_all.
  - rewrite chars_length in *. lia.
  - unfold path. rewrite append_length. simpl String.length. lia.
Qed.

Lemma string_of_list_ascii_app (l1 l2 : list ascii) :
  string_of_list_ascii (l1 ++ l2)
  = string_of_list_ascii l1 ++ string_of_list_ascii l2.
Proof. induction l1 as [| c l1 IH]; simpl; [reflexivity | now rewrite IH]. Qed.

Lemma word_chars_not_slash (l : list ascii) :
  forallb word_char l = true -> forallb not_slash l = true.
Proof.
  rewrite !forallb_forall. intros H x Hx. specialize (H x Hx).
  unfold word_char in H. apply andb_true_iff in H. tauto.
Qed.

Lemma rev_word_chars (s : string) :
  is_word s = true ->
  exists c rs,
    rev (chars s) = c :: rs /\ forallb word_char (c :: rs) = true.
Proof.
  intros Hs. destruct (is_word_chars s Hs) as [Hne Hall].
  assert (Hallr : forallb word_char (rev (chars s)) = true).
  { rewrite forallb_forall in *. intros x Hx. apply Hall. now apply in_rev. }
  destruct (rev (chars s)) as [| c rs] eqn:Hrs.
  - exfalso. apply Hne. apply (f_equal (@rev ascii)) in Hrs.
    now rewrite rev_involutive in Hrs.
  - exists c, rs. split; [reflexivity | exact Hallr].
Qed.

(** A name that ends in a dot and a word names a file. *)
Lemma names_file_extension (b s : string) :
  is_word s = true -> names_file (b ++ String "." s) = true.
Proof.
  intros Hs. destruct (rev_word_chars s Hs) as (c & rs & Hrs & Hall).
  unfold names_file. rewrite rev_chars_extension, Hrs. simpl.
  simpl in Hall. apply andb_true_iff in Hall. destruct Hall as [Hc _].
  unfold word_char in Hc. apply andb_true_iff in Hc. tauto.
Qed.

Lemma names_file_last_component (b : string) :
  names_file b = true -> names_file (last_component b) = true.
Proof.
  intros Hb. destruct (names_file_chars b Hb) as (c & rb & Hrb & Hc).
  unfold names_file, last_component, chars.
  rewrite list_ascii_of_string_of_list_ascii, rev_involutive.
  fold (chars b). rewrite Hrb. simpl. unfold not_slash at 1. rewrite Hc.
  simpl. unfold not_slash. now rewrite Hc.
Qed.

(** The extension stays with the last component. *)
Lemma last_component_extension (b s : string) :
  is_word s = true ->
  last_component (b ++ String "." s) = last_component b ++ String "." s.
Proof.
  intros Hs. destruct (rev_word_chars s Hs) as (c & rs & Hrs & Hall).
  unfold last_component. rewrite rev_chars_extension.
  rewrite take_while_app_all
    by (rewrite Hrs; apply word_chars_not_slash; exact Hall).
  cbn [take_while]. change (not_slash "."%char) with true. cbv iota.
  rewrite rev_app_distr. simpl rev. rewrite rev_involutive, <- app_assoc.
  rewrite string_of_list_ascii_app. simpl app.
  change ("."%char :: chars s) with (list_ascii_of_string (String "." s)).
  now rewrite string_of_list_ascii_of_string.
Qed.

Lemma extension_eqb (s t : string) :
  String.eqb (String "." s) (String "." t) = String.eqb s t.
Proof. reflexivity. Qed.

(** What [getLocalFileSourceOptions] returns for an options object whose
    [file] is a string. *)
Lemma getLocalFileSourceOptions_eq (others : list (string * Js.value))
  (file : string) :
  getLocalFileSourceOptions (Js.Obj (("file", Js.Str file) :: others))
  = Js.Return
      {| file_path := file;
         compression_enabled :=
           String.eqb
             (Path.extname
                (if String.eqb (Path.extname file) ".enc"
                 then Path.name (Path.parse file) else file))
             ".gz";
         encryption :=
           if String.eqb (Path.extname file) ".enc"
           then {| encryption_enabled := true;
                   key := Some (Js.lookup "key" others) |}
           else {| encryption_enabled := false; key := None |} |}.
Proof.
  unfold getLocalFileSourceOptions.
  change (Js.get (Js.Obj (("file", Js.Str file) :: others)) "file")
    with (Js.Return (Js.Str file)).
  change (Js.get (Js.Obj (("file", Js.Str file) :: others)) "key")
    with (Js.Return (Js.lookup "key" others)).
  cbn [Js.bind validateString].
  destruct (String.eqb (Path.extname file) ".enc"); cbn [Js.bind];
    destruct (String.eqb (Path.extname _) ".gz"); reflexivity.
Qed.

Lemma eqb_neq_false (a b : string) : a <> b -> String.eqb a b = false.
Proof. apply String.eqb_neq. Qed.

(** ** [extname] reads the last component only *)

Lemma scan_char_shifted (off : Z) (c : ascii) (i : Z)
  (st st' : Path.scan_state) :
  0 <= off -> 0 <= i -> shifted off st st' ->
  shifted off (Path.scan_char c i st) (Path.scan_char c (i + off) st')
  /\ Path.startPart (Path.scan_char c i st) = Path.startPart st
  /\ Path.startPart (Path.scan_char c (i + off) st') = Path.startPart st'
  /\ Path.matchedSlash (Path.scan_char c i st) = false.
Proof.
  intros Hoff Hi (Hd & He & Hm & Hd' & He' & Hm' & Hp').
  destruct st as [sd sp en ms pd], st' as [sd' sp' en' ms' pd'].
  unfold shifted, Path.scan_char. simpl in *. subst sd' en' ms' pd'.
  destruct (Ascii.eqb c Path.CHAR_DOT);
    destruct (Z.eqb_spec en (-1)); destruct (Z.eqb_spec sd (-1));
    subst; simpl; decide_tests; simpl;
    repeat split; try lia; try reflexivity; try (now left);
    try (now right); destruct Hm; try lia; try assumption; auto.
Qed.

Lemma scan_rev_component (rest : list ascii) :
  forall comp st st',
    forallb not_slash comp = true ->
    shifted (Z.of_nat (List.length rest)) st st' ->
    exists st'',
      scan_rev 0 (comp ++ rest) st' = scan_rev 0 rest st''
      /\ shifted (Z.of_nat (List.length rest)) (scan_rev 0 comp st) st''
      /\ Path.startPart (scan_rev 0 comp st) = Path.startPart st
      /\ Path.startPart st'' = Path.startPart st'
      /\ (comp <> [] -> Path.matchedSlash (scan_rev 0 comp st) = false).
Proof.
  induction comp as [| c comp IH]; intros st st' Hall Hsh.
  - exists st'. split; [reflexivity |]. split; [exact Hsh |].
    split; [reflexivity |]. split; [reflexivity |].
    intros H. contradiction.
  - simpl in Hall. apply andb_true_iff in Hall. destruct Hall as [Hc Hall].
    unfold not_slash in Hc. apply negb_true_iff in Hc.
    cbn [scan_rev app]. rewrite Hc. cbn [Nat.ltb Nat.leb].
    rewrite length_app, Nat2Z.inj_add.
    destruct (scan_char_shifted (Z.of_nat (List.length rest)) c
                (Z.of_nat (List.length comp)) st st')
      as (Hsh' & Hsp & Hsp' & Hms); try lia; try assumption.
    destruct (IH _ _ Hall Hsh') as (st'' & Heq & Hsh'' & Hp & Hp' & Hm).
    exists st''. split; [exact Heq |]. split; [exact Hsh'' |].
    split; [now rewrite Hp |]. split; [now rewrite Hp' |].
    intros _. destruct comp as [| c' comp'].
    + exact Hms.
    + apply Hm. discriminate.
Qed.

Lemma take_while_split (f : ascii -> bool) (l : list ascii) :
  exists rest,
    l = (take_while f l ++ rest)%list
    /\ (rest = [] \/ exists c r, rest = c :: r /\ f c = false).
Proof.
  induction l as [| c l (rest & Heq & Hrest)]; simpl.
  - exists []. split; [reflexivity | now left].
  - destruct (f c) eqn:Hc.
    + exists rest. split; [simpl; now rewrite <- Heq | exact Hrest].
    + exists (c :: l). split; [reflexivity |]. right. now exists c, l.
Qed.

Lemma slice_shift (p q : string) (a b : Z) :
  0 <= a -> 0 <= b ->
  Js.slice (p ++ q) (a + Z.of_nat (String.length p))
    (b + Z.of_nat (String.length p))
  = Js.slice q a b.
Proof.
  intros Ha Hb. unfold Js.slice. rewrite append_length, Nat2Z.inj_add.
  set (lp := Z.of_nat (String.length p)).
  set (lq := Z.of_nat (String.length q)).
  assert (0 <= lp) by (subst lp; lia). assert (0 <= lq) by (subst lq; lia).
  destruct (Z.ltb_spec (a + lp) 0); [lia |].
  destruct (Z.ltb_spec (b + lp) 0); [lia |].
  destruct (Z.ltb_spec a 0); [lia |].
  destruct (Z.ltb_spec b 0); [lia |].
  replace (Z.min (a + lp) (lp + lq)) with (Z.min a lq + lp) by lia.
  replace (Z.min (b + lp) (lp + lq)) with (Z.min b lq + lp) by lia.
  replace (Z.min b lq + lp - (Z.min a lq + lp))
    with (Z.min b lq - Z.min a lq) by lia.
  rewrite !substring_chars, chars_append, skipn_app.
  replace (Z.to_nat (Z.min a lq + lp))
    with (Z.to_nat (Z.min a lq) + List.length (chars p))%nat
    by (rewrite chars_length; subst lp; lia).
  rewrite skipn_all2 by lia.
  replace (Z.to_nat (Z.min a lq) + List.length (chars p)
           - List.length (chars p))%nat
    with (Z.to_nat (Z.min a lq)) by lia.
  reflexivity.
Qed.

(** [extname] gives the same answer on a path that names a file and on its
    last component. *)
Lemma extname_last_component (b : string) :
  names_file b = true ->
  Path.extname (last_component b) = Path.extname b.
Proof.
  intros Hb. destruct (names_file_chars b Hb) as (c0 & rb0 & Hrb & Hc0).
  destruct (take_while_split not_slash (rev (chars b)))
    as (rest & Hsplit & Hrest).
  set (comp := take_while not_slash (rev (chars b))) in *.
  assert (Hcomp : comp <> []).
  { subst comp. rewrite Hrb. simpl. unfold not_slash at 1. rewrite Hc0.
    discriminate. }
  assert (Hall : forallb not_slash comp = true).
  { subst comp. clear. induction (rev (chars b)) as [| c l IH]; simpl;
      [reflexivity |].
    destruct (not_slash c) eqn:Hc; simpl; [now rewrite Hc | reflexivity]. }
  assert (Hlc : chars (last_component b) = rev comp).
  { unfold last_component, chars.
    now rewrite list_ascii_of_string_of_list_ascii. }
  assert (Hb_eq : b = string_of_list_ascii (rev rest) ++ last_component b).
  { assert (Hchars : chars b = (rev rest ++ rev comp)%list).
    { rewrite <- rev_app_distr, <- Hsplit. now rewrite rev_involutive. }
    unfold last_component. fold comp.
    rewrite <- string_of_list_ascii_app, <- Hchars.
    symmetry. apply string_of_list_ascii_of_string. }
  set (off := Z.of_nat (List.length rest)).
  assert (Hoff : off = Z.of_nat (String.length
                                   (string_of_list_ascii (rev rest)))).
  { subst off. rewrite <- chars_length. unfold chars.
    now rewrite list_ascii_of_string_of_list_ascii, length_rev. }
  unfold Path.extname. rewrite !scan_all, Hlc, rev_involutive, Hsplit.
  fold comp.
  destruct (scan_rev_component rest comp Path.scan_init Path.scan_init Hall)
    as (st'' & Heq & Hsh & Hsp & Hsp'' & Hms).
  { unfold shifted. simpl. repeat split; lia. }
  specialize (Hms Hcomp). simpl in Hsp, Hsp''.
  set (r := scan_rev 0 comp Path.scan_init) in *.
  rewrite Heq.
  assert (Hfinal : exists st',
             scan_rev 0 rest st'' = st'
             /\ Path.startDot st' = Path.startDot st''
             /\ Path.end_ st' = Path.end_ st''
             /\ Path.preDotState st' = Path.preDotState st''
             /\ Path.startPart st' = off).
  { destruct Hrest as [-> | (c & rest' & -> & Hc)].
    - exists st''. repeat split. subst off. simpl. lia.
    - unfold not_slash in Hc. apply negb_false_iff in Hc.
      destruct Hsh as (_ & _ & _ & _ & _ & Hm'' & _).
      eexists. split.
      + cbn [scan_rev]. cbn [Nat.ltb Nat.leb]. rewrite Hc, Hm'', Hms.
        reflexivity.
      + simpl. repeat split. subst off. cbn [List.length]. lia. }
  destruct Hfinal as (st' & -> & Hd' & He' & Hp' & Hsp').
  destruct Hsh as (Hd & He & _ & Hsd & Hse & _ & Hsp0).
  fold off in Hsd, Hse.
  assert (Hoff0 : 0 <= off) by (subst off; lia).
  unfold Path.no_extension.
  rewrite Hd', He', Hp', Hsp', Hsd, Hse, Hsp0, Hsp.
  destruct (Z.eqb_spec (Path.end_ r) (-1)) as [He1 | He1];
    [reflexivity |].
  destruct (Z.eqb_spec (Path.startDot r) (-1)) as [Hd1 | Hd1];
    [rewrite !orb_true_r; reflexivity |].
  destruct (Z.eqb_spec (Path.end_ r + off) (-1)); [lia |].
  destruct (Z.eqb_spec (Path.startDot r + off) (-1)); [lia |].
  replace (Path.startDot r + off =? Path.end_ r + off - 1)
    with (Path.startDot r =? Path.end_ r - 1)
    by (destruct (Z.eqb_spec (Path.startDot r) (Path.end_ r - 1));
        destruct (Z.eqb_spec (Path.startDot r + off) (Path.end_ r + off - 1));
        try reflexivity; lia).
  replace (Path.startDot r + off =? off + 1)
    with (Path.startDot r =? 0 + 1)
    by (destruct (Z.eqb_spec (Path.startDot r) (0 + 1));
        destruct (Z.eqb_spec (Path.startDot r + off) (off + 1));
        try reflexivity; lia).
  match goal with
  | |- (if ?c then _ else _) = _ => destruct c; [reflexivity |]
  end.
  rewrite Hb_eq at 2. rewrite Hoff. symmetry. apply slice_shift; lia.
Qed.

(** ** Names that are a suffix and nothing else *)

(** The scan of a word and the dot before it, when nothing was seen yet. *)
Lemma scan_rev_word_dot (start : nat) (s : string) (tail : list ascii) :
  is_word s = true ->
  (start <= List.length tail)%nat ->
  scan_rev start (rev (chars s) ++ "."%char :: tail) Path.scan_init
  = scan_rev start tail
      {| Path.startDot := Z.of_nat (List.length tail);
         Path.startPart := 0;
         Path.end_ := Z.of_nat (List.length tail) + 1
                      + Z.of_nat (String.length s);
         Path.matchedSlash := false;
         Path.preDotState := 0 |}.
Proof.
  intros Hs Hstart.
  destruct (rev_word_chars s Hs) as (c0 & rs & Hrs & Hall).
  assert (Hlen : String.length s = S (List.length rs)).
  { rewrite <- chars_length, <- length_rev, Hrs. reflexivity. }
  rewrite Hrs. simpl in Hall. apply andb_true_iff in Hall.
  destruct Hall as [Hc0 Hrest].
  cbn [scan_rev app]. rewrite length_app. cbn [List.length].
  destruct (Nat.ltb_spec (List.length rs + S (List.length tail)) start)
    as [Hlt | _]; [lia |].
  rewrite (word_char_not_slash c0 Hc0), (scan_char_word_first c0 _ Hc0).
  rewrite scan_rev_word_idle; try assumption; try reflexivity;
    [| simpl; lia | simpl; lia].
  cbn [scan_rev].
  destruct (Nat.ltb_spec (List.length tail) start) as [Hlt | _]; [lia |].
  change (Ascii.eqb "."%char Path.CHAR_FORWARD_SLASH) with false. cbv iota.
  f_equal. unfold Path.scan_char. cbn.
  change (Ascii.eqb "."%char Path.CHAR_DOT) with true. cbv iota.
  destruct (Z.eqb_spec
              (Z.of_nat (List.length rs + S (List.length tail)) + 1) (-1));
    [lia |].
  cbn. f_equal. rewrite Hlen. lia.
Qed.

Lemma no_extension_before_dot (st : Path.scan_state) :
  Path.preDotState st = 0 ->
  (Path.end_ st =? -1) || Path.no_extension st = true.
Proof.
  intros H. unfold Path.no_extension. rewrite H.
  change (0 =? 0) with true. now rewrite orb_true_r, orb_true_l, orb_true_r.
Qed.

(** A dot file has no extension: [.enc], [backups/.gz]. *)
Lemma extname_dotfile (d s : string) :
  ends_dir d = true -> is_word s = true ->
  Path.extname (d ++ String "." s) = "".
Proof.
  intros Hd Hs. unfold Path.extname.
  rewrite scan_all, rev_chars_extension, scan_rev_word_dot
    by (try lia; assumption).
  unfold ends_dir in Hd.
  destruct (rev (chars d)) as [| c rd].
  - cbn [scan_rev]. now rewrite no_extension_before_dot.
  - cbn [scan_rev Nat.ltb Nat.leb Path.matchedSlash negb]. rewrite Hd.
    now rewrite no_extension_before_dot.
Qed.

Lemma last_component_dir (d : string) :
  ends_dir d = true -> last_component d = "".
Proof.
  unfold ends_dir, last_component, not_slash. intros H.
  destruct (rev (chars d)) as [| c rd]; [reflexivity |].
  cbn [take_while]. now rewrite H.
Qed.

(** ** The stages an archive name selects *)

(** C3, as the code has it.  The stages are read off the archive name from
    the right: the extension of the name decides on decryption, and when it
    is [.enc] the extension of the name without it decides on decompression
    (otherwise the extension of the name itself does).  So, for every path
    [b] that names a file, [b.gz.enc] enables both stages, with the key of
    the options, [b.gz] enables decompression only, [b.enc] enables
    decryption only (when [b] itself does not end in [.gz]) and [b] enables
    neither (when it ends in neither).  A suffix that is the whole file name
    is no extension: after a directory prefix [d] (empty, or ending in a
    separator), [d.enc] and [d.gz] enable neither stage, and [d.gz.enc]
    enables decryption without decompression. *)
Theorem archive_suffixes_select_the_stages
  (b d : string) (others : list (string * Js.value)) :
  names_file b = true ->
  ends_dir d = true ->
  let opts := fun file => Js.Obj (("file", Js.Str file) :: others) in
  let with_key :=
    {| encryption_enabled := true; key := Some (Js.lookup "key" others) |} in
  let without := {| encryption_enabled := false; key := None |} in
  (forall file,
     getLocalFileSourceOptions (opts file)
     = Js.Return
         {| file_path := file;
            compression_enabled :=
              String.eqb
                (Path.extname
                   (if String.eqb (Path.extname file) ".enc"
                    then Path.name (Path.parse file) else file))
                ".gz";
            encryption :=
              if String.eqb (Path.extname file) ".enc"
              then with_key else without |})
  /\ getLocalFileSourceOptions (opts (b ++ ".gz.enc"))
     = Js.Return {| file_path := b ++ ".gz.enc";
                    compression_enabled := true;
                    encryption := with_key |}
  /\ getLocalFileSourceOptions (opts (b ++ ".gz"))
     = Js.Return {| file_path := b ++ ".gz";
                    compression_enabled := true;
                    encryption := without |}
  /\ (Path.extname b <> ".gz" ->
      getLocalFileSourceOptions (opts (b ++ ".enc"))
      = Js.Return {| file_path := b ++ ".enc";
                     compression_enabled := false;
                     encryption := with_key |})
  /\ (Path.extname b <> ".enc" -> Path.extname b <> ".gz" ->
      getLocalFileSourceOptions (opts b)
      = Js.Return {| file_path := b;
                     compression_enabled := false;
                     encryption := without |})
  /\ getLocalFileSourceOptions (opts (d ++ ".enc"))
     = Js.Return {| file_path := d ++ ".enc";
                    compression_enabled := false;
                    encryption := without |}
  /\ getLocalFileSourceOptions (opts (d ++ ".gz"))
     = Js.Return {| file_path := d ++ ".gz";
                    compression_enabled := false;
                    encryption := without |}
  /\ getLocalFileSourceOptions (opts (d ++ ".gz.enc"))
     = Js.Return {| file_path := d ++ ".gz.enc";
                    compression_enabled := false;
                    encryption := with_key |}.
Proof.
  intros Hb Hd opts with_key without. subst opts.
  assert (Hdot : forall s,
             is_word s = true ->
             getLocalFileSourceOptions
               (Js.Obj (("file", Js.Str (d ++ String "." s)) :: others))
             = Js.Return {| file_path := d ++ String "." s;
                            compression_enabled := false;
                            encryption := without |}).
  { intros s Hs. rewrite getLocalFileSourceOptions_eq.
    rewrite (extname_dotfile d s Hd Hs). cbn [String.eqb]. cbv iota.
    rewrite (extname_dotfile d s Hd Hs). reflexivity. }
  split; [intros file; apply getLocalFileSourceOptions_eq |].
  split; [| split; [| split; [| split; [| split; [| split]]]]].
  - rewrite getLocalFileSourceOptions_eq.
    change ".gz.enc" with (".gz" ++ String "." "enc").
    rewrite <- append_assoc.
    rewrite (extname_extension (b ++ ".gz") "enc")
      by (try apply names_file_extension; reflexivity).
    rewrite String.eqb_refl. cbv iota.
    rewrite (parse_name_extension (b ++ ".gz") "enc")
      by (try apply names_file_extension; reflexivity).
    rewrite (last_component_extension b "gz") by reflexivity.
    rewrite (extname_extension (last_component b) "gz")
      by (try apply names_file_last_component; try assumption; reflexivity).
    reflexivity.
  - rewrite getLocalFileSourceOptions_eq.
    rewrite (extname_extension b "gz") by (try assumption; reflexivity).
    change (String.eqb ".gz" ".enc") with false. cbv iota.
    rewrite (extname_extension b "gz") by (try assumption; reflexivity).
    reflexivity.
  - intros Hgz. rewrite getLocalFileSourceOptions_eq.
    rewrite (extname_extension b "enc") by (try assumption; reflexivity).
    rewrite String.eqb_refl. cbv iota.
    rewrite (parse_name_extension b "enc") by (try assumption; reflexivity).
    rewrite (extname_last_component b Hb).
    rewrite (eqb_neq_false _ _ Hgz). reflexivity.
  - intros Henc Hgz. rewrite getLocalFileSourceOptions_eq.
    rewrite (eqb_neq_false _ _ Henc). cbv iota.
    rewrite (eqb_neq_false _ _ Hgz). reflexivity.
  - exact (Hdot "enc" eq_refl).
  - exact (Hdot "gz" eq_refl).
  - rewrite getLocalFileSourceOptions_eq.
    change ".gz.enc" with (".gz" ++ String "." "enc").
    rewrite <- append_assoc.
    rewrite (extname_extension (d ++ ".gz") "enc")
      by (try apply names_file_extension; reflexivity).
    rewrite String.eqb_refl. cbv iota.
    rewrite (parse_name_extension (d ++ ".gz") "enc")
      by (try apply names_file_extension; reflexivity).
    rewrite (last_component_extension d "gz") by reflexivity.
    rewrite (last_component_dir d Hd).
    rewrite (extname_dotfile "" "gz") by reflexivity.
    reflexivity.
Qed.

Lemma archive_suffixes_select_the_stages_witness :
  getLocalFileSourceOptions
    (Js.Obj [("file", Js.Str "report.gz.enc"); ("key", Js.Str "secret")])
  = Js.Return
      {| file_path := "report.gz.enc";
         compression_enabled := true;
         encryption := {| encryption_enabled := true;
                          key := Some (Js.Str "secret") |} |}
  /\ getLocalFileSourceOptions
       (Js.Obj [("file", Js.Str "report.gz"); ("key", Js.Str "secret")])
     = Js.Return
         {| file_path := "report.gz";
            compression_enabled := true;
            encryption := {| encryption_enabled := false; key := None |} |}
  /\ getLocalFileSourceOptions
       (Js.Obj [("file", Js.Str "report.enc"); ("key", Js.Str "secret")])
     = Js.Return
         {| file_path := "report.enc";
            compression_enabled := false;
            encryption := {| encryption_enabled := true;
                             key := Some (Js.Str "secret") |} |}
  /\ getLocalFileSourceOptions
       (Js.Obj [("file", Js.Str "report"); ("key", Js.Str "secret")])
     = Js.Return
         {| file_path := "report";
            compression_enabled := false;
            encryption := {| encryption_enabled := false; key := None |} |}
  /\ getLocalFileSourceOptions
       (Js.Obj [("file", Js.Str "/srv/.gz.enc"); ("key", Js.Str "secret")])
     = Js.Return
         {| file_path := "/srv/.gz.enc";
            compression_enabled := false;
            encryption := {| encryption_enabled := true;
                             key := Some (Js.Str "secret") |} |}.
Proof.
  destruct (archive_suffixes_select_the_stages "report" "/srv/"
              [("key", Js.Str "secret")] eq_refl eq_refl)
    as (_ & Hboth & Hgz & Henc & Hnone & _ & _ & Hdot).
  split; [exact Hboth |]. split; [exact Hgz |].
  split; [| split; [| exact Hdot]]; [apply Henc | apply Hnone];
    intros H; vm_compute in H; discriminate.
Defined.

(** C3, as stated, fails: not every path with a suffix has the stage
    enabled.  The file [.enc] is not decrypted, and in [backups/.gz.enc] the
    name that remains once [.enc] is stripped is [.gz], which is not
    decompressed. *)
Lemma suffix_as_whole_name_is_not_peeled :
  getLocalFileSourceOptions
    (Js.Obj [("file", Js.Str ".enc"); ("key", Js.Str "secret")])
  = Js.Return
      {| file_path := ".enc";
         compression_enabled := false;
         encryption := {| encryption_enabled := false; key := None |} |}
  /\ Path.name (Path.parse "backups/.gz.enc") = ".gz"
  /\ getLocalFileSourceOptions
       (Js.Obj [("file", Js.Str "backups/.gz.enc"); ("key", Js.Str "secret")])
     = Js.Return
         {| file_path := "backups/.gz.enc";
            compression_enabled := false;
            encryption := {| encryption_enabled := true;
                             key := Some (Js.Str "secret") |} |}.
Proof. repeat split; vm_compute; reflexivity. Qed.

(** C9. The suffixes count by position, not by presence.  When the
    extension of the path is not [.enc], decryption stays disabled and
    decompression depends on that extension alone; so [b.enc.s], for a word
    [s] other than [enc], is not decrypted although [.enc] occurs in it, and
    is decompressed exactly when [s] is [gz].  A [.gz] under another
    extension is not seen: neither in [b.gz.s] nor, once the outer [.enc] is
    stripped, in [b.gz.s.enc], when [s] is not [gz]. *)
Theorem suffix_recognition_is_positional
  (b s : string) (others : list (string * Js.value)) :
  names_file b = true -> is_word s = true -> s <> "enc" ->
  let opts := fun file => Js.Obj (("file", Js.Str file) :: others) in
  let with_key :=
    {| encryption_enabled := true; key := Some (Js.lookup "key" others) |} in
  let without := {| encryption_enabled := false; key := None |} in
  (forall file,
     Path.extname file <> ".enc" ->
     getLocalFileSourceOptions (opts file)
     = Js.Return
         {| file_path := file;
            compression_enabled := String.eqb (Path.extname file) ".gz";
            encryption := without |})
  /\ getLocalFileSourceOptions (opts (b ++ ".enc" ++ String "." s))
     = Js.Return
         {| file_path := b ++ ".enc" ++ String "." s;
            compression_enabled := String.eqb s "gz";
            encryption := without |}
  /\ (s <> "gz" ->
      getLocalFileSourceOptions (opts (b ++ ".gz" ++ String "." s))
      = Js.Return
          {| file_path := b ++ ".gz" ++ String "." s;
             compression_enabled := false;
             encryption := without |})
  /\ (s <> "gz" ->
      getLocalFileSourceOptions
        (opts ((b ++ ".gz" ++ String "." s) ++ ".enc"))
      = Js.Return
          {| file_path := (b ++ ".gz" ++ String "." s) ++ ".enc";
             compression_enabled := false;
             encryption := with_key |}).
Proof.
  intros Hb Hs Henc opts with_key without. subst opts.
  assert (Hnot_enc : String.eqb (String "." s) ".enc" = false).
  { change ".enc" with (String "." "enc"). rewrite extension_eqb.
    now apply String.eqb_neq. }
  assert (Hinner : forall e,
             is_word e = true ->
             Path.extname (b ++ String "." e ++ String "." s)
             = String "." s).
  { intros e He. rewrite <- append_assoc.
    apply extname_extension; [now apply names_file_extension | exact Hs]. }
  split; [| split; [| split]].
  - intros file Hfile. rewrite getLocalFileSourceOptions_eq.
    rewrite (eqb_neq_false _ _ Hfile). reflexivity.
  - rewrite getLocalFileSourceOptions_eq.
    rewrite (Hinner "enc" eq_refl), Hnot_enc. cbv iota.
    rewrite (Hinner "enc" eq_refl). reflexivity.
  - intros Hgz. rewrite getLocalFileSourceOptions_eq.
    rewrite (Hinner "gz" eq_refl), Hnot_enc. cbv iota.
    rewrite (Hinner "gz" eq_refl).
    change ".gz" with (String "." "gz") at 3. rewrite extension_eqb.
    now rewrite (eqb_neq_false _ _ Hgz).
  - intros Hgz. rewrite getLocalFileSourceOptions_eq.
    assert (Hfile : names_file (b ++ ".gz" ++ String "." s) = true).
    { rewrite <- append_assoc. now apply names_file_extension. }
    rewrite (extname_extension _ "enc" Hfile eq_refl).
    rewrite String.eqb_refl. cbv iota.
    rewrite (parse_name_extension _ "enc" Hfile eq_refl).
    rewrite <- append_assoc, (last_component_extension _ s Hs).
    rewrite (extname_extension _ s) by
      (try apply names_file_last_component;
       try apply names_file_extension; try reflexivity; assumption).
    change ".gz" with (String "." "gz") at 3. rewrite extension_eqb.
    now rewrite (eqb_neq_false _ _ Hgz).
Qed.

Lemma suffix_recognition_is_positional_witness :
  Path.extname "backup.tar" <> ".enc"
  /\ getLocalFileSourceOptions
       (Js.Obj [("file", Js.Str "backup.tar"); ("key", Js.Str "secret")])
     = Js.Return
         {| file_path := "backup.tar";
            compression_enabled := false;
            encryption := {| encryption_enabled := false; key := None |} |}
  /\ getLocalFileSourceOptions
       (Js.Obj [("file", Js.Str "report.enc.gz"); ("key", Js.Str "secret")])
     = Js.Return
         {| file_path := "report.enc.gz";
            compression_enabled := true;
            encryption := {| encryption_enabled := false; key := None |} |}.
Proof.
  assert (Hext : Path.extname "backup.tar" <> ".enc")
    by (intros H; vm_compute in H; discriminate).
  destruct (suffix_recognition_is_positional "report" "gz"
              [("key", Js.Str "secret")] eq_refl eq_refl
              ltac:(discriminate))
    as (Hany & Hinner & _).
  split; [exact Hext |]. split; [| exact Hinner].
  exact (Hany "backup.tar" Hext).
Defined.

Example archive_names :
  getLocalFileSourceOptions (Js.Obj [("file", Js.Str "/var/backups/site.gz.bak")])
  = Js.Return
      {| file_path := "/var/backups/site.gz.bak";
         compression_enabled := false;
         encryption := {| encryption_enabled := false; key := None |} |}
  /\ getLocalFileSourceOptions
       (Js.Obj [("file", Js.Str "site.gz.bak.enc"); ("key", Js.Str "k")])
     = Js.Return
         {| file_path := "site.gz.bak.enc";
            compression_enabled := false;
            encryption := {| encryption_enabled := true;
                             key := Some (Js.Str "k") |} |}
  /\ getLocalFileSourceOptions
       (Js.Obj [("file", Js.Str "exports.enc/site.gz"); ("key", Js.Str "k")])
     = Js.Return
         {| file_path := "exports.enc/site.gz";
            compression_enabled := true;
            encryption := {| encryption_enabled := false; key := None |} |}.
Proof. repeat split; vm_compute; reflexivity. Qed.

(** * Further properties *)

(** ** The two filters together *)

(** X1. The filters agree: a link the links filter keeps has both endpoints
    among the entities the entities filter keeps, so filtering a content
    graph whose links all resolve leaves no link pointing to a dropped
    entity. *)
Theorem filtered_links_resolve
  (excluded : list string) (es : list entity) (ls : list link) :
  references_resolve es ls ->
  references_resolve (filter (entities_filter excluded) es)
    (filter (links_filter excluded) ls).
Proof.
  intros Hres l Hl. apply filter_In in Hl. destruct Hl as [Hin Hkeep].
  unfold links_filter in Hkeep. apply andb_true_iff in Hkeep.
  destruct Hkeep as [Hleft Hright].
  destruct (Hres l Hin) as [(e1 & He1 & Hp1) (e2 & He2 & Hp2)].
  split.
  - exists e1. split; [| exact Hp1]. apply filter_In. split; [exact He1 |].
    unfold is_endpoint in Hp1. apply andb_true_iff in Hp1.
    destruct Hp1 as [Ht _]. apply String.eqb_eq in Ht.
    unfold entities_filter. now rewrite Ht.
  - exists e2. split; [| exact Hp2]. apply filter_In. split; [exact He2 |].
    unfold is_endpoint in Hp2. apply andb_true_iff in Hp2.
    destruct Hp2 as [Ht _]. apply String.eqb_eq in Ht.
    unfold entities_filter. now rewrite Ht.
Qed.

Lemma filtered_links_resolve_witness :
  references_resolve
    (filter (entities_filter ["admin::user"]) sample_entities)
    (filter (links_filter ["admin::user"]) sample_links).
Proof.
  apply (filtered_links_resolve ["admin::user"] sample_entities sample_links).
  set (d := {| entity_type := ""; entity_id := 0;
               entity_data := Js.Undefined |}).
  intros l [<- | [<- | []]]; split;
    first [ exists (nth 0 sample_entities d);
            split; [simpl; tauto | reflexivity]
          | exists (nth 1 sample_entities d);
            split; [simpl; tauto | reflexivity]
          | exists (nth 2 sample_entities d);
            split; [simpl; tauto | reflexivity] ].
Defined.

(** X2. With an empty exclusion list both filters keep everything, and
    what a filter keeps under a list it keeps under every list with no more
    types: adding types only drops more, and neither the order nor a
    repetition of the types matters. *)
Theorem filters_follow_the_exclusion_list
  (excluded excluded' : list string) (e : entity) (l : link) :
  entities_filter [] e = true
  /\ links_filter [] l = true
  /\ (incl excluded excluded' ->
      (entities_filter excluded' e = true -> entities_filter excluded e = true)
      /\ (links_filter excluded' l = true -> links_filter excluded l = true)).
Proof.
  split; [reflexivity |]. split; [reflexivity |].
  intros Hincl.
  assert (Hmono : forall x,
             negb (Js.includes excluded' x) = true ->
             negb (Js.includes excluded x) = true).
  { intros x. rewrite !includes_not_In. intros H Hx. apply H.
    now apply Hincl. }
  split.
  - unfold entities_filter. apply Hmono.
  - unfold links_filter. rewrite !andb_true_iff. intros [H1 H2].
    split; now apply Hmono.
Qed.

Lemma filters_follow_the_exclusion_list_witness :
  entities_filter ["admin::role"]
    {| entity_type := "api::tag.tag"; entity_id := 3;
       entity_data := Js.Obj [] |} = true
  /\ links_filter ["admin::role"] (nth 0 sample_links
                                     {| kind := "";
                                        left := {| type := ""; ref := 0 |};
                                        right := {| type := ""; ref := 0 |} |})
     = true.
Proof.
  destruct (filters_follow_the_exclusion_list
              ["admin::role"] ["admin::user"; "admin::role"]
              {| entity_type := "api::tag.tag"; entity_id := 3;
                 entity_data := Js.Obj [] |}
              (nth 0 sample_links
                 {| kind := "";
                    left := {| type := ""; ref := 0 |};
                    right := {| type := ""; ref := 0 |} |}))
    as (_ & _ & Hmono).
  destruct (Hmono ltac:(intros x [<- | []]; simpl; tauto)) as [He Hl].
  split; [apply He | apply Hl]; reflexivity.
Defined.

(** ** What the handlers send, and when *)

(** X3. Each event the progress stream emits makes its handler send one
    telemetry message, named after the event and carrying the names of the
    two providers: the messages sent up to any instant are those of the
    events emitted up to then, in the order of emission, whether or not
    earlier telemetry calls have resolved. *)
Theorem one_message_per_emitted_event
  (eng : engine) (now : Z) (tl : timeline) :
  sent (snd (run_until eng now tl store_init))
  = map (fun e => (telemetry_name e,
                   {| eventProperties_source := sourceProvider_name eng;
                      eventProperties_destination :=
                        destinationProvider_name eng |}))
      (emitted_until now tl).
Proof.
  assert (Hgen : forall tl s,
             sent (snd (run_until eng now tl s))
             = (sent s ++ map (telemetry_message eng)
                            (emitted_until now tl))%list).
  { clear tl. induction tl as [| [t x] rest IH]; intros s; simpl.
    - now rewrite app_nil_r.
    - destruct (t <=? now); simpl; [| now rewrite app_nil_r].
      rewrite IH. destruct x as [e p | e]; simpl.
      + now rewrite <- app_assoc.
      + destruct (resume e (awaiting s)); [| reflexivity].
        destruct e; reflexivity. }
  rewrite Hgen. reflexivity.
Qed.

Lemma resume_In (e : event) (l rest : list event) :
  resume e l = Some rest ->
  In e l /\ forall e', In e' rest -> In e' l.
Proof.
  revert rest. induction l as [| e0 l IH]; intros rest H; simpl in H.
  - discriminate.
  - destruct (event_eqb e e0) eqn:Heq.
    + injection H as <-.
      assert (e = e0) as <- by (destruct e, e0; try discriminate; reflexivity).
      split; [now left | intros e' He'; now right].
    + destruct (resume e l) as [rest' |]; [| discriminate].
      injection H as <-. destruct (IH rest' eq_refl) as [Hin Hsub].
      split; [now right |]. intros e' [<- | He']; [now left |].
      right. now apply Hsub.
Qed.

Lemma run_step_telemetry_first (eng : engine) (x : step) (s : store) :
  telemetry_first eng s -> telemetry_first eng (run_step eng x s).
Proof.
  intros [Haw Hwr]. destruct x as [e p | e]; simpl.
  - split; simpl.
    + intros e' He'. apply in_or_app. apply in_app_or in He'.
      destruct He' as [He' | [<- | []]]; [left; now apply Haw |].
      right. now left.
    + intros c Hc. destruct (Hwr c Hc) as (e' & Ht & Hcode & Hin).
      exists e'. repeat split; try assumption. apply in_or_app. now left.
  - destruct (resume e (awaiting s)) as [rest |] eqn:Hres;
      [| split; assumption].
    destruct (resume_In e _ _ Hres) as [Hin Hsub].
    assert (Hrest : forall e', In e' rest -> In (telemetry_message eng e') (sent s))
      by (intros e' He'; apply Haw; now apply Hsub).
    destruct e; simpl; split; simpl; try assumption.
    + intros c Hc. apply in_app_or in Hc. destruct Hc as [Hc | [<- | []]].
      * now apply Hwr.
      * exists transfer_finish. repeat split. now apply Haw.
    + intros c Hc. apply in_app_or in Hc. destruct Hc as [Hc | [<- | []]].
      * now apply Hwr.
      * exists transfer_error. repeat split. now apply Haw.
Qed.

Lemma run_until_telemetry_first (eng : engine) (now : Z) (tl : timeline) :
  forall s,
    telemetry_first eng s -> telemetry_first eng (snd (run_until eng now tl s)).
Proof.
  induction tl as [| [u x] rest IH]; intros s H; simpl.
  - assumption.
  - destruct (u <=? now); simpl.
    + apply IH. apply run_step_telemetry_first. assumption.
    + assumption.
Qed.

Lemma exit_telemetry_first (w : world) (opts : Js.value) (x : exit) :
  command w opts = Exited x -> telemetry_first (the_engine w) (final x).
Proof.
  intros H. destruct (command_exit w opts x H) as
    [(_ & _ & _ & Hf & _) | [(_ & _ & _ & _ & _ & Hf & _)
                            | (_ & _ & t & earlier & _ & Hf & _)]];
    rewrite Hf; try apply run_until_telemetry_first;
    (split; [intros e [] | intros c []]).
Qed.

Lemma run_until_sent_grows (eng : engine) (now : Z) (tl : timeline)
  (m : string * telemetry_payload) :
  forall s, In m (sent s) -> In m (sent (snd (run_until eng now tl s))).
Proof.
  induction tl as [| [u x] rest IH]; intros s H; simpl.
  - assumption.
  - destruct (u <=? now); simpl; [| assumption].
    apply IH. destruct x as [e p | e]; simpl.
    + apply in_or_app. now left.
    + destruct (resume e (awaiting s)); [| assumption].
      destruct e; assumption.
Qed.

Lemma awaiting_assign_exit_code (e : event) (s : store) :
  awaiting (assign_exit_code e s) = awaiting s
  /\ writes (assign_exit_code e s)
     = (writes s ++ map exit_code_of (filter is_terminal [e]))%list.
Proof. destruct e; simpl; now rewrite ?app_nil_r. Qed.

(** The assignments made up to [now] are those of the terminal handlers
    whose telemetry call resolved, and each of these calls went out
    before. *)
Lemma run_until_resolved (eng : engine) (now : Z) (tl : timeline) :
  forall s,
    telemetry_first eng s ->
    writes (snd (run_until eng now tl s))
    = (writes s
       ++ map exit_code_of
            (filter is_terminal (resolved_until now tl (awaiting s))))%list
    /\ (forall e, In e (resolved_until now tl (awaiting s)) ->
                  In (telemetry_message eng e)
                    (sent (snd (run_until eng now tl s)))).
Proof.
  induction tl as [| [u x] rest IH]; intros s Hs.
  - simpl. split; [now rewrite app_nil_r | contradiction].
  - rewrite run_until_cons. cbn [resolved_until].
    destruct (u <=? now); [| simpl; split;
                              [now rewrite app_nil_r | contradiction]].
    destruct (IH (run_step eng x s) (run_step_telemetry_first eng x s Hs))
      as [Hw Hsent].
    destruct x as [e p | e].
    + exact (conj Hw Hsent).
    + simpl run_step in *.
      destruct (resume e (awaiting s)) as [rest' |] eqn:Hres;
        [| exact (conj Hw Hsent)].
      destruct (awaiting_assign_exit_code e
                  {| transferExitCode := transferExitCode s;
                     awaiting := rest'; sent := sent s;
                     writes := writes s |}) as [Haw Hwr].
      rewrite Haw in Hw, Hsent. rewrite Hwr in Hw. simpl awaiting in *.
      simpl writes in Hw. split.
      * rewrite Hw, <- app_assoc. f_equal.
        change (e :: resolved_until now rest rest')
          with ([e] ++ resolved_until now rest rest')%list.
        now rewrite filter_app, map_app.
      * intros e' [<- | He']; [| now apply Hsent].
        apply run_until_sent_grows.
        assert (Hin : In (telemetry_message eng e) (sent s))
          by (apply (proj1 Hs); exact (proj1 (resume_In e _ _ Hres))).
        destruct e; exact Hin.
Qed.

(** X4. The exit code is recorded only once the telemetry call of its
    handler has resolved: when the command ends the process with a code read
    from the slot, the values assigned to the slot are the codes of the
    handlers of [transfer::finish] and [transfer::error] whose awaited
    telemetry call resolved, in the order in which they resolved; the code
    read is that of such a handler, and the message of that handler
    ([didDEITSProcessFinish] for 0, [didDEITSProcessFail] for 1) went out
    before. *)
Theorem recorded_code_follows_its_telemetry
  (w : world) (opts : Js.value) (x : exit) :
  command w opts = Exited x ->
  site x = StatusPoll ->
  exists h e,
    final x = snd (run_until (the_engine w) h (schedule w) store_init)
    /\ writes (final x)
       = map exit_code_of
           (filter is_terminal (resolved_until h (schedule w) []))
    /\ In e (resolved_until h (schedule w) [])
    /\ is_terminal e = true
    /\ exit_code_of e = code x
    /\ In (telemetry_name e, telemetryPayload (the_engine w) Js.Undefined)
         (sent (final x)).
Proof.
  intros Hcmd Hsite.
  destruct (exit_store_ok w opts x Hcmd) as [Hlast _].
  destruct (command_exit w opts x Hcmd) as
    [(Hs & _) | [(Hs & _) | (_ & _ & t & earlier & _ & Hf & _ & _ & Hwait
                              & _)]];
    try (rewrite Hsite in Hs; discriminate).
  destruct Hwait as [(_ & _ & Hc & _) | (Hs & _)];
    [| rewrite Hsite in Hs; discriminate].
  assert (Hinit : telemetry_first (the_engine w) store_init)
    by (split; [intros e [] | intros c []]).
  destruct (run_until_resolved (the_engine w) (command_horizon w t)
              (schedule w) store_init Hinit) as [Hw Hsent].
  rewrite <- Hf in Hw, Hsent. simpl in Hw, Hsent.
  assert (Hin : In (code x) (writes (final x))).
  { apply last_write_In. rewrite <- Hlast. exact Hc. }
  rewrite Hw in Hin. apply in_map_iff in Hin.
  destruct Hin as (e & Hcode & He). apply filter_In in He.
  destruct He as [He Hterm].
  exists (command_horizon w t), e.
  repeat split; try assumption. now apply Hsent.
Qed.

Lemma recorded_code_follows_its_telemetry_witness :
  exists x,
    command world_error_recorded sample_opts = Exited x
    /\ site x = StatusPoll
    /\ exists h e,
         final x = snd (run_until (the_engine world_error_recorded) h
                          (schedule world_error_recorded) store_init)
         /\ writes (final x)
            = map exit_code_of
                (filter is_terminal
                   (resolved_until h (schedule world_error_recorded) []))
         /\ In e (resolved_until h (schedule world_error_recorded) [])
         /\ is_terminal e = true
         /\ exit_code_of e = code x
         /\ In (telemetry_name e,
                telemetryPayload (the_engine world_error_recorded)
                  Js.Undefined)
              (sent (final x)).
Proof.
  eexists. split; [vm_compute; reflexivity |]. split; [reflexivity |].
  apply (recorded_code_follows_its_telemetry world_error_recorded sample_opts);
    vm_compute; reflexivity.
Defined.

(** A handler that emitted its event and whose telemetry call is still out
    has recorded nothing: in the sample run the error is known at 150 ms and
    the slot is empty until the call resolves. *)
Example pending_telemetry_records_nothing :
  resolved_until 179 (schedule world_error_recorded) [] = []
  /\ slot_at sample_engine (schedule world_error_recorded) store_init 179
     = None
  /\ resolved_until 180 (schedule world_error_recorded) [] = [transfer_error]
  /\ slot_at sample_engine (schedule world_error_recorded) store_init 180
     = Some 1.
Proof. repeat split. Qed.

(** ** Runs that record no status *)

Lemma writes_need_a_resolve (eng : engine) (now : Z) (tl : timeline) :
  forall s,
    (List.length (writes (snd (run_until eng now tl s)))
     <= List.length (writes s) + terminal_resolves tl)%nat.
Proof.
  induction tl as [| [u x] rest IH]; intros s.
  - simpl. lia.
  - rewrite run_until_cons. destruct (u <=? now).
    + specialize (IH (run_step eng x s)).
      destruct (run_step_writes eng x s) as
        [[Hw _] | (e & l & -> & Hterm & _ & Hw & _)].
      * rewrite Hw in IH. destruct x as [e p | e]; cbn [terminal_resolves].
        -- exact IH.
        -- destruct (is_terminal e); lia.
      * rewrite Hw, length_app in IH. cbn [List.length] in IH.
        cbn [terminal_resolves]. rewrite Hterm. lia.
    + cbn [snd]. lia.
Qed.

(** X5. A run whose terminal handlers never get past their telemetry call
    (no terminal event, or a telemetry call that does not resolve) ends as a
    success: when the options are well formed and nothing throws, the
    command exits with code 0 at the end of the wait, whatever events the
    engine emitted. *)
Theorem unrecorded_status_exits_with_0
  (w : world) (fields : list (string * Js.value)) (o : source_options)
  (u : unit) (table : string) :
  getLocalFileSourceOptions (Js.Obj fields) = Js.Return o ->
  setup w = Js.Return u ->
  try_block w = Js.Return table ->
  terminal_resolves (schedule w) = 0%nat ->
  exists x,
    command w (Js.Obj fields) = Exited x
    /\ code x = 0 /\ site x = Timeout
    /\ transferExitCode (final x) = None.
Proof.
  intros Hopts Hsetup Htry Hnone.
  destruct (command_outcome w (Js.Obj fields)) as
    [[x Hx] | (e & _ & _ & [He | He])];
    [| rewrite Hopts in He; discriminate
     | rewrite Hsetup in He; discriminate].
  exists x. split; [exact Hx |].
  destruct (exit_store_ok w _ x Hx) as [Hlast _].
  destruct (command_exit w _ x Hx) as
    [(_ & Hobj & _) | [(_ & _ & [e He] & _)
                      | (_ & _ & t & earlier & _ & Hf & _ & _ & Hwait
                         & _)]].
  - discriminate.
  - rewrite Htry in He. discriminate.
  - assert (Hslot : transferExitCode (final x) = None).
    { rewrite Hlast, Hf.
      pose proof (writes_need_a_resolve (the_engine w) (command_horizon w t)
                    (schedule w) store_init) as Hlen.
      rewrite Hnone in Hlen. simpl in Hlen.
      destruct (writes (snd (run_until (the_engine w) (command_horizon w t)
                               (schedule w) store_init)));
        [reflexivity | simpl in Hlen; lia]. }
    destruct Hwait as [(_ & _ & Hc & _) | (Hs & Hc & _)].
    + rewrite Hslot in Hc. discriminate.
    + repeat split; assumption.
Qed.

Lemma unrecorded_status_exits_with_0_witness :
  exists x,
    command world_telemetry_hangs sample_opts = Exited x
    /\ code x = 0 /\ site x = Timeout
    /\ transferExitCode (final x) = None.
Proof.
  apply (unrecorded_status_exits_with_0 world_telemetry_hangs
           [("file", Js.Str "backups/export.tar.gz.enc");
            ("key", Js.Str "secret")]
           {| file_path := "backups/export.tar.gz.enc";
              compression_enabled := true;
              encryption :=
                {| encryption_enabled := true;
                   key := Some (Js.Str "secret") |} |}
           tt "| entities | 0 |"); vm_compute; reflexivity.
Defined.

(** ** The wait at its bounds *)

Lemma waitForExitCode_unfold (w : world) (maxWait startTime : Z)
  (tl : timeline) (s : store) (lg : list log_entry) :
  waitForExitCode w maxWait startTime tl s lg
  = poll w (S (S (Z.to_nat (maxWait / 50)))) maxWait startTime startTime
      tl s lg [].
Proof.
  unfold waitForExitCode. now rewrite Nat.add_comm.
Qed.

(** X6. A status that is already recorded when the wait starts ends the
    process at once: with a positive [maxWait], [waitForExitCode] exits at
    its first poll, at the instant it was called, with the recorded code; it
    arms no timer, and the event loop runs none of the steps it had still
    to run. *)
Theorem recorded_status_exits_at_once
  (w : world) (maxWait startTime c : Z) (tl : timeline) (s : store)
  (lg : list log_entry) :
  0 < maxWait ->
  transferExitCode s = Some c ->
  waitForExitCode w maxWait startTime tl s lg
  = Some (startTime,
          {| code := c; site := StatusPoll; final := s;
             log := lg; polled := [startTime]; dropped := tl |}).
Proof.
  intros Hpos Hslot. rewrite waitForExitCode_unfold. cbn [poll].
  rewrite Hslot.
  destruct (Z.ltb_spec (startTime - startTime) maxWait); [reflexivity | lia].
Qed.

Lemma recorded_status_exits_at_once_witness :
  waitForExitCode world_error_recorded 5000 200 []
    (snd (run_until sample_engine 200 (schedule world_error_recorded)
            store_init)) []
  = Some (200,
          {| code := 1; site := StatusPoll;
             final := snd (run_until sample_engine 200
                             (schedule world_error_recorded) store_init);
             log := []; polled := [200]; dropped := [] |}).
Proof.
  apply (recorded_status_exits_at_once world_error_recorded 5000 200 1 []
           (snd (run_until sample_engine 200 (schedule world_error_recorded)
                   store_init)) []).
  - lia.
  - reflexivity.
Defined.

(** With [maxWait] zero or negative the loop body is never entered:
    [waitForExitCode] exits at once with code 0 and does not read the slot,
    even when a status is recorded. *)
Theorem no_wait_exits_with_0
  (w : world) (maxWait startTime : Z) (tl : timeline) (s : store)
  (lg : list log_entry) :
  maxWait <= 0 ->
  waitForExitCode w maxWait startTime tl s lg
  = Some (startTime,
          {| code := 0; site := Timeout; final := s;
             log := lg; polled := []; dropped := tl |}).
Proof.
  intros Hneg. rewrite waitForExitCode_unfold. cbn [poll].
  destruct (Z.ltb_spec (startTime - startTime) maxWait); [lia | reflexivity].
Qed.

Lemma no_wait_exits_with_0_witness :
  option_map (fun r => (fst r, code (snd r), site (snd r),
                        transferExitCode (final (snd r)), polled (snd r)))
    (waitForExitCode world_error_recorded 0 200 []
       (snd (run_until sample_engine 200 (schedule world_error_recorded)
               store_init)) [])
  = Some (200, 0, Timeout, Some 1, []).
Proof.
  rewrite (no_wait_exits_with_0 world_error_recorded 0 200 []
             (snd (run_until sample_engine 200
                     (schedule world_error_recorded) store_init)) [])
    by lia.
  reflexivity.
Defined.




(** ** What the command logs *)

Lemma exit_code_0_or_1 (w : world) (opts : Js.value) (x : exit) :
  command w opts = Exited x -> code x = 0 \/ code x = 1.
Proof.
  intros Hx. destruct (exit_store_ok w opts x Hx) as [Hlast Hall].
  destruct (command_exit w opts x Hx) as
    [(_ & _ & Hc & _) | [(_ & _ & _ & Hc & _)
                        | (_ & _ & t & earlier & _ & _ & _ & _ & Hwait
                           & _)]];
    try (now right).
  destruct Hwait as [(_ & _ & Hc & _) | (_ & Hc & _)]; [| now left].
  rewrite Forall_forall in Hall. apply Hall.
  apply last_write_In. now rewrite <- Hlast.
Qed.

(** X8. The success message does not wait for the status: whenever the
    awaited transfer resolves and its table is built, the command logs the
    table and "Import process has been completed successfully!" before it
    enters the wait, so the log is the same whether the process then exits
    with 0 or, after an error status, with 1. *)
Theorem success_is_logged_before_the_status
  (w : world) (fields : list (string * Js.value)) (o : source_options)
  (u : unit) (table : string) :
  getLocalFileSourceOptions (Js.Obj fields) = Js.Return o ->
  setup w = Js.Return u ->
  try_block w = Js.Return table ->
  exists x,
    command w (Js.Obj fields) = Exited x
    /\ log x = [info "Starting import..."; info table;
                info "Import process has been completed successfully!"]
    /\ (site x = StatusPoll \/ site x = Timeout)
    /\ (code x = 0 \/ code x = 1).
Proof.
  intros Hopts Hsetup Htry.
  pose proof (exit_code_0_or_1 w (Js.Obj fields)) as Hcode.
  revert Hcode. unfold command. simpl negb. cbv iota.
  rewrite Hopts, Hsetup, Htry.
  destruct (run_until (the_engine w) (transferSettledAt w) (schedule w)
              store_init) as [tl s].
  destruct (waitForExitCode_fuel 5000) as [Hfuel Hroom].
  unfold waitForExitCode.
  match goal with
  | |- context [poll w _ 5000 ?st ?st tl s ?lg []] =>
    destruct (poll_exits w 5000 st _ st tl s lg [] Hfuel)
      as (t & x & earlier & Hpoll & _ & _ & _ & _ & _ & Hlog & _ & Hsite & _);
      [lia |]
  end.
  rewrite Hpoll. intros Hcode. exists x. split; [reflexivity |].
  split; [exact Hlog |]. split; [| now apply Hcode].
  destruct Hsite as [(Hs & _) | (Hs & _)]; [now left | now right].
Qed.

Lemma success_is_logged_before_the_status_witness :
  exists x,
    command world_error_recorded sample_opts = Exited x
    /\ log x = [info "Starting import..."; info "| entities | 0 |";
                info "Import process has been completed successfully!"]
    /\ (site x = StatusPoll \/ site x = Timeout)
    /\ (code x = 0 \/ code x = 1).
Proof.
  apply (success_is_logged_before_the_status world_error_recorded
           [("file", Js.Str "backups/export.tar.gz.enc");
            ("key", Js.Str "secret")]
           {| file_path := "backups/export.tar.gz.enc";
              compression_enabled := true;
              encryption :=
                {| encryption_enabled := true;
                   key := Some (Js.Str "secret") |} |}
           tt "| entities | 0 |"); vm_compute; reflexivity.
Defined.

(** The sample run with a recorded error: the success message, then exit
    code 1. *)
Example error_run_logs_success :
  exists x,
    command world_error_recorded sample_opts = Exited x
    /\ code x = 1
    /\ log x = [info "Starting import..."; info "| entities | 0 |";
                info "Import process has been completed successfully!"].
Proof. eexists. split; [vm_compute; reflexivity |]. repeat split. Qed.

(** ** Options that cannot be built *)

Lemma getLocalFileSourceOptions_returns
  (fields : list (string * Js.value)) (file : string) :
  Js.lookup "file" fields = Js.Str file ->
  exists o,
    getLocalFileSourceOptions (Js.Obj fields) = Js.Return o
    /\ file_path o = file.
Proof.
  intros H. unfold getLocalFileSourceOptions, Js.get. cbn [Js.bind].
  rewrite H. cbn [validateString Js.bind].
  destruct (String.eqb (Path.extname file) ".enc"); cbn [Js.bind];
    destruct (String.eqb (Path.extname _) ".gz"); eexists; split; reflexivity.
Qed.

Lemma getLocalFileSourceOptions_throws
  (fields : list (string * Js.value)) :
  (forall file, Js.lookup "file" fields <> Js.Str file) ->
  getLocalFileSourceOptions (Js.Obj fields)
  = Js.Throw (Js.TypeError "The path argument must be of type string").
Proof.
  intros H. unfold getLocalFileSourceOptions, Js.get. cbn [Js.bind].
  destruct (Js.lookup "file" fields) as [| | b | n | s | fs]; try reflexivity.
  now contradiction (H s).
Qed.

(** X9. The source options can be built exactly when the options are an
    object whose [file] is a string; the result then carries that string as
    the path, unchanged.  In every other case building them throws a
    [TypeError]; for an options object this happens before the [try], so the
    promise of the command rejects with that error and the process is not
    ended by the command. *)
Theorem source_options_need_a_string_file (opts : Js.value) :
  ((exists o, getLocalFileSourceOptions opts = Js.Return o)
   <-> exists fields file,
         opts = Js.Obj fields /\ Js.lookup "file" fields = Js.Str file)
  /\ (forall o, getLocalFileSourceOptions opts = Js.Return o ->
                Js.get opts "file" = Js.Return (Js.Str (file_path o)))
  /\ (forall e, getLocalFileSourceOptions opts = Js.Throw e ->
                (exists m, e = Js.TypeError m)
                /\ (Js.isObject opts = true ->
                    forall w, command w opts = Rejected e)).
Proof.
  destruct opts as [| | b | n | s | fields];
    try (split; [split; [intros [o H]; discriminate
                        | intros (f & file & H & _); discriminate]
                | split; [intros o H; discriminate
                         | intros e H; injection H as <-;
                           split; [eexists; reflexivity
                                  | intros Hobj; discriminate]]]).
  destruct (Js.lookup "file" fields) as [| | b | n | file | fs] eqn:Hfile.
  all: try (rewrite getLocalFileSourceOptions_throws
             by (intros file H; rewrite Hfile in H; discriminate);
            split; [split; [intros [o H]; discriminate
                           | intros (f & file & H & Hl); injection H as <-;
                             rewrite Hfile in Hl; discriminate]
                   | split; [intros o H; discriminate
                            | intros e H; injection H as <-;
                              split; [eexists; reflexivity |];
                              intros _ w; unfold command; simpl;
                              rewrite getLocalFileSourceOptions_throws
                                by (intros file H; rewrite Hfile in H;
                                    discriminate);
                              reflexivity]]).
  destruct (getLocalFileSourceOptions_returns fields file Hfile)
    as (o & Ho & Hpath).
  split; [split; [intros _; now exists fields, file | intros _; now exists o] |].
  split.
  - intros o' Ho'. rewrite Ho in Ho'. injection Ho' as <-.
    simpl. now rewrite Hfile, Hpath.
  - intros e He. rewrite Ho in He. discriminate.
Qed.

Lemma source_options_need_a_string_file_witness :
  (exists m,
     Js.TypeError "The path argument must be of type string" = Js.TypeError m)
  /\ command world_finish (Js.Obj [("key", Js.Str "secret")])
     = Rejected (Js.TypeError "The path argument must be of type string").
Proof.
  destruct (proj2 (proj2 (source_options_need_a_string_file
                            (Js.Obj [("key", Js.Str "secret")])))
              (Js.TypeError "The path argument must be of type string")
              eq_refl) as [Hm Hcmd].
  split; [exact Hm | exact (Hcmd eq_refl world_finish)].
Defined.

(** ** Names that only look like suffixes *)

(** X10. A file whose whole name is a dot and a word has no extension for
    the code: [.enc], [.gz] or [backups/.enc] select neither decryption nor
    decompression, and a key given with them is left out of the options. *)
Theorem dot_files_select_no_stage
  (d s : string) (others : list (string * Js.value)) :
  ends_dir d = true -> is_word s = true ->
  getLocalFileSourceOptions
    (Js.Obj (("file", Js.Str (d ++ String "." s)) :: others))
  = Js.Return
      {| file_path := d ++ String "." s;
         compression_enabled := false;
         encryption := {| encryption_enabled := false; key := None |} |}.
Proof.
  intros Hd Hs. rewrite getLocalFileSourceOptions_eq.
  rewrite (extname_dotfile d s Hd Hs). cbn [String.eqb]. cbv iota.
  rewrite (extname_dotfile d s Hd Hs). reflexivity.
Qed.

Lemma dot_files_select_no_stage_witness :
  getLocalFileSourceOptions
    (Js.Obj [("file", Js.Str "backups/.enc"); ("key", Js.Str "secret")])
  = Js.Return
      {| file_path := "backups/.enc";
         compression_enabled := false;
         encryption := {| encryption_enabled := false; key := None |} |}.
Proof.
  apply (dot_files_select_no_stage "backups/" "enc"
           [("key", Js.Str "secret")]); reflexivity.
Defined.

(** X11. Each suffix is peeled once.  For every path [b] that names a
    file: [b.enc.enc] is decrypted and not decompressed, and so is
    [b.gz.enc.enc], whose [.gz] stays under the second [.enc];
    [b.gz.gz] is decompressed and not decrypted; [b.enc.gz.enc] is decrypted
    and decompressed, the inner [.enc] being left alone. *)
Theorem each_suffix_is_peeled_once
  (b : string) (others : list (string * Js.value)) :
  names_file b = true ->
  let opts := fun file => Js.Obj (("file", Js.Str file) :: others) in
  let with_key :=
    {| encryption_enabled := true; key := Some (Js.lookup "key" others) |} in
  let without := {| encryption_enabled := false; key := None |} in
  getLocalFileSourceOptions (opts (b ++ ".enc.enc"))
  = Js.Return {| file_path := b ++ ".enc.enc";
                 compression_enabled := false;
                 encryption := with_key |}
  /\ getLocalFileSourceOptions (opts (b ++ ".gz.enc.enc"))
     = Js.Return {| file_path := b ++ ".gz.enc.enc";
                    compression_enabled := false;
                    encryption := with_key |}
  /\ getLocalFileSourceOptions (opts (b ++ ".gz.gz"))
     = Js.Return {| file_path := b ++ ".gz.gz";
                    compression_enabled := true;
                    encryption := without |}
  /\ getLocalFileSourceOptions (opts (b ++ ".enc.gz.enc"))
     = Js.Return {| file_path := b ++ ".enc.gz.enc";
                    compression_enabled := true;
                    encryption := with_key |}.
Proof.
  intros Hb opts with_key without. subst opts.
  assert (Hpeel : forall b0 s,
             names_file b0 = true -> is_word s = true ->
             getLocalFileSourceOptions
               (Js.Obj (("file", Js.Str ((b0 ++ String "." s) ++ ".enc"))
                          :: others))
             = Js.Return
                 {| file_path := (b0 ++ String "." s) ++ ".enc";
                    compression_enabled := String.eqb s "gz";
                    encryption := with_key |}).
  { intros b0 s Hb0 Hs. rewrite getLocalFileSourceOptions_eq.
    assert (Hfile : names_file (b0 ++ String "." s) = true)
      by now apply names_file_extension.
    rewrite (extname_extension _ "enc" Hfile eq_refl).
    rewrite String.eqb_refl. cbv iota.
    rewrite (parse_name_extension _ "enc" Hfile eq_refl).
    rewrite (last_component_extension _ s Hs).
    rewrite (extname_extension _ s) by
      (try apply names_file_last_component; assumption).
    change ".gz" with (String "." "gz"). now rewrite extension_eqb. }
  split; [| split; [| split]].
  - change ".enc.enc" with (String "." "enc" ++ ".enc").
    rewrite <- append_assoc. now rewrite (Hpeel b "enc" Hb eq_refl).
  - change ".gz.enc.enc" with (".gz" ++ String "." "enc" ++ ".enc").
    rewrite <- !append_assoc.
    now rewrite (Hpeel (b ++ ".gz") "enc"
                   (names_file_extension b "gz" eq_refl) eq_refl).
  - rewrite getLocalFileSourceOptions_eq.
    change ".gz.gz" with (".gz" ++ String "." "gz").
    rewrite <- append_assoc.
    rewrite (extname_extension (b ++ ".gz") "gz")
      by (try apply names_file_extension; reflexivity).
    change (String.eqb ".gz" ".enc") with false. cbv iota.
    rewrite (extname_extension (b ++ ".gz") "gz")
      by (try apply names_file_extension; reflexivity).
    reflexivity.
  - change ".enc.gz.enc" with (".enc" ++ String "." "gz" ++ ".enc").
    rewrite <- !append_assoc.
    now rewrite (Hpeel (b ++ ".enc") "gz"
                   (names_file_extension b "enc" eq_refl) eq_refl).
Qed.

Lemma each_suffix_is_peeled_once_witness :
  getLocalFileSourceOptions
    (Js.Obj [("file", Js.Str "/srv/dump.enc.enc"); ("key", Js.Str "k")])
  = Js.Return
      {| file_path := "/srv/dump.enc.enc";
         compression_enabled := false;
         encryption := {| encryption_enabled := true;
                          key := Some (Js.Str "k") |} |}.
Proof.
  exact (proj1 (each_suffix_is_peeled_once "/srv/dump" [("key", Js.Str "k")]
                  eq_refl)).
Defined.

(** ** Strategies that are given but empty *)

(** X12. The default of a kind is taken exactly when the value given for
    it is falsy (absent, [null], [false], [0] or the empty string) or is the
    default itself; every other value is passed on as it is, whether or not
    it names a strategy the engine knows. *)
Theorem default_strategy_exactly_when_falsy
  (DEFAULT_VERSION_STRATEGY DEFAULT_SCHEMA_STRATEGY
     DEFAULT_CONFLICT_STRATEGY : Js.value)
  (ignored : list string) (k : strategy_kind)
  (fields : list (string * Js.value)) :
  let given := Js.lookup (option_name k) fields in
  let default :=
    default_strategy DEFAULT_VERSION_STRATEGY DEFAULT_SCHEMA_STRATEGY
      DEFAULT_CONFLICT_STRATEGY k in
  let chosen :=
    chosen_strategy DEFAULT_VERSION_STRATEGY DEFAULT_SCHEMA_STRATEGY
      DEFAULT_CONFLICT_STRATEGY ignored k (Js.Obj fields) in
  (chosen = Js.Return default
   <-> Js.truthy given = false \/ given = default)
  /\ (chosen = Js.Return given \/ chosen = Js.Return default)
  /\ (Js.truthy given = false
      <-> given = Js.Undefined \/ given = Js.Null \/ given = Js.Bool false
          \/ given = Js.Number 0 \/ given = Js.Str "").
Proof.
  intros given default chosen. subst chosen. rewrite chosen_strategy_eq.
  fold given default. unfold Js.logical_or.
  split; [| split].
  - destruct (Js.truthy given) eqn:Ht.
    + split.
      * intros H. right. now injection H.
      * intros [H | H]; [discriminate | now rewrite H].
    + split; [intros _; now left | reflexivity].
  - destruct (Js.truthy given); [now left | now right].
  - destruct given as [| | b | n | s | fs]; simpl.
    + split; [intros _; now left | reflexivity].
    + split; [intros _; right; now left | reflexivity].
    + destruct b; split; try discriminate.
      * intros [H | [H | [H | [H | H]]]]; discriminate.
      * intros _. right. right. now left.
      * reflexivity.
    + destruct (Z.eqb_spec n 0) as [-> | Hn]; simpl; split;
        try discriminate; try reflexivity.
      * intros _. right. right. right. now left.
      * intros [H | [H | [H | [H | H]]]]; try discriminate.
        injection H as ->. contradiction.
    + destruct (String.eqb_spec s "") as [-> | Hs]; simpl; split;
        try discriminate; try reflexivity.
      * intros _. right. right. right. now right.
      * intros [H | [H | [H | [H | H]]]]; try discriminate.
        injection H as ->. contradiction.
    + split; [discriminate |].
      intros [H | [H | [H | [H | H]]]]; discriminate.
Qed.

(** ** The props the [CellContent] test builds *)

(** X13. The attributes the element under test is created with are the
    fixture with the props of the test case set over it: a property the test
    case gives has the value given (also when that value is [undefined]),
    every other one keeps the value of the fixture, and no further property
    appears.  Spreading the fixture a second time in the JSX changes
    nothing, and a test case without props gets the values of the
    fixture. *)
Theorem fixture_props_are_overridden
  (props : CellContentTest.object) (k : string) :
  CellContentTest.ComponentFixture props k = CellContentTest.customProps props k
  /\ CellContentTest.ComponentFixture props k
     = match props k with
       | Some v => Some v
       | None => CellContentTest.PROPS_FIXTURE k
       end
  /\ (forall v, props k = Some v ->
                CellContentTest.ComponentFixture props k = Some v)
  /\ (props k = None ->
      CellContentTest.ComponentFixture props k
      = CellContentTest.PROPS_FIXTURE k)
  /\ (CellContentTest.ComponentFixture props k = None
      <-> props k = None /\ CellContentTest.PROPS_FIXTURE k = None)
  /\ CellContentTest.ComponentFixture CellContentTest.empty k
     = CellContentTest.PROPS_FIXTURE k.
Proof.
  unfold CellContentTest.ComponentFixture, CellContentTest.customProps,
    CellContentTest.spread, CellContentTest.empty.
  generalize (CellContentTest.PROPS_FIXTURE k). intros fixture.
  destruct (props k) as [v |] eqn:Hk.
  - repeat split; try reflexivity; try discriminate.
    + intros v' H. exact H.
    + intros [H _]. discriminate.
    + now destruct fixture.
  - destruct fixture as [v |]; repeat split; try reflexivity;
      try discriminate.
    intros [_ H]. discriminate.
Qed.

(** The second test of the file, the PDF asset, and a test case that gives
    an explicit [undefined]. *)
Example fixture_pdf_asset :
  map (CellContentTest.ComponentFixture
         (CellContentTest.literal
            [("mime", Js.Str "application/pdf");
             ("fileExtension", Js.Str "pdf")]))
    ["alternativeText"; "cellType"; "elementType"; "content";
     "fileExtension"; "mime"; "thumbnailURL"; "url"; "size"]
  = [Some (Js.Str "alternative alt");
     Some (Js.Str "image");
     Some (Js.Str "asset");
     Some (Js.Str "michka-picture-url-default.jpeg");
     Some (Js.Str "pdf");
     Some (Js.Str "application/pdf");
     Some (Js.Str "michka-picture-url-thumbnail.jpeg");
     Some (Js.Str "michka-picture-url-default.jpeg");
     None]
  /\ CellContentTest.ComponentFixture
       (CellContentTest.literal [("url", Js.Undefined)]) "url"
     = Some Js.Undefined.
Proof. split; vm_compute; reflexivity. Qed.
